(** * evalua: runtime, cache-aware generation call and evaluation harness

    A shallow embedding of the TypeScript sources
      - [packages/core]  (Trace, RuntimeCtx, validateWithZod, defineStep,
                          defineWorkflow, createRuntime)
      - [packages/llm]   (ProgrammableLLMClient.generate, parseWithSchema,
                          stableStringify, maybeGet, maybeSet)
      - [packages/eval]  (runEval)
    together with the properties of the specification that are about them.

    JavaScript numbers are IEEE-754 doubles: they are the kernel's primitive
    floats here.  Asynchronous functions run one after the other (there is
    no parallelism inside one run), so an [await] is sequencing in the
    monad [M] below. *)

From Stdlib Require Import PrimFloat Ascii String List Permutation OrdersEx.
From stdpp Require Import gmap strings list.

Local Open Scope string_scope.
Local Open Scope list_scope.
Set Warnings "-register-all".

(** ** JavaScript values *)

Inductive value : Type :=
  | VUndefined
  | VNull
  | VBool (b : bool)
  | VNum (n : float)
  | VStr (s : string)
  | VArr (items : list value)
  | VObj (entries : list (string * value)).

(** [Object.entries] of an object value, in the object's own key order. *)
Definition Object_entries (v : value) : list (string * value) :=
  match v with
  | VObj entries => entries
  | _ => []
  end.

(** ToBoolean: what [if (x)] tests. *)
Definition truthy (v : value) : bool :=
  match v with
  | VUndefined | VNull => false
  | VBool b => b
  | VNum n => negb (PrimFloat.eqb n 0 || PrimFloat.is_nan n)
  | VStr s => negb (String.eqb s "")
  | VArr _ | VObj _ => true
  end.

(** The functions of the JavaScript host that the sources call and that are
    not part of the repository. *)
Class Host := {
  (** [JSON.stringify] on a number and on a string *)
  JSON_stringify_number : float -> string;
  JSON_stringify_string : string -> string;
  (** [JSON.parse]: [None] when it throws a SyntaxError *)
  JSON_parse : string -> option value;
  (** [a.localeCompare(b)]: negative, zero or positive *)
  localeCompare : string -> string -> comparison;
}.

(** ** Thrown values *)

Inductive Thrown : Type :=
  | ValidationError (issues : value) (message : string)
  | ToolError (message : string)
  | Error (message : string)
  | ThrownString (s : string).

(** [err?.message ?? String(err)] *)
Definition errorText (err : Thrown) : string :=
  match err with
  | ValidationError _ message => message
  | ToolError message => message
  | Error message => message
  | ThrownString s => s
  end.

(** ** Trace events *)

Definition RunId := nat.
Definition SpanId := nat.

Inductive Direction := input_dir | output_dir.

Record Tokens := { tokens_in : option float; tokens_out : option float }.

Record LLMParams := { params_temperature : option float; params_maxTokens : option float }.

Inductive TraceEvent : Type :=
  | span_start (timestamp : float) (runId : RunId) (spanId : SpanId)
      (parentSpanId : option SpanId) (name : string) (metadata : option value)
  | span_end (timestamp : float) (runId : RunId) (spanId : SpanId)
      (parentSpanId : option SpanId) (name : string) (durationMs : float)
      (error : option string)
  | llm_call (timestamp : float) (runId : RunId) (spanId : SpanId) (model : string)
      (params : option LLMParams) (raw : option string) (parsed : value)
      (error : option string) (tokens : option Tokens) (costUsd : option float)
  | tool_call (timestamp : float) (runId : RunId) (spanId : SpanId) (tool : string)
      (input : value) (output : option value) (error : option string)
  | validation_error (timestamp : float) (runId : RunId) (spanId : SpanId)
      (direction : Direction) (issues : value)
  | artifact (timestamp : float) (runId : RunId) (spanId : SpanId) (name : string)
      (data : value)
  | event (timestamp : float) (runId : RunId) (spanId : SpanId) (name : string)
      (metadata : option value).

(** ** Schemas (zod) *)

Inductive SafeParseResult :=
  | parse_success (data : value)
  | parse_failure (issues : value).

Record ZodType := {
  safeParse : value -> SafeParseResult;
  (** what [schema.toString?.()] gives; [None] when there is no such method *)
  toString : option string;
}.

(** ** Generation requests and results *)

Record LLMGenerateArgs := {
  model : string;
  messages : list value;
  schema : option ZodType;
  temperature : option float;
  maxTokens : option float;
  tools : option (list value);
}.

Record LLMResponse := {
  response_raw : string;
  response_tokens : option Tokens;
  response_costUsd : option float;
}.

Record LLMGenerateResult := {
  raw : string;
  parsed : value;
  tokens : option Tokens;
  costUsd : option float;
}.

(** ** Calls to the collaborators, in the order the runtime makes them *)

Inductive Effect : Type :=
  | SinkWrite (e : TraceEvent)    (* sink.write(e) *)
  | SinkClose                     (* sink.close() *)
  | Respond (args : LLMGenerateArgs).   (* options.responder(args) *)

Inductive Outcome (A : Type) : Type :=
  | Ok (a : A)
  | Throw (err : Thrown).
Arguments Ok {A} a.
Arguments Throw {A} err.

Section Runtime.

(** The world outside the runtime, which the generation backend reads and
    changes. *)
Context {U : Type}.

Record State := {
  nextUUID : nat;                    (* supply of [randomUUID()] *)
  clock : float;                     (* [Date.now()] *)
  cacheStore : gmap string value;    (* contents of the in-memory cache *)
  world : U;
}.

(** A computation returns or throws, changes the state, and makes calls to
    the collaborators. *)
Definition M (A : Type) : Type := State -> Outcome A * State * list Effect.

Definition ret {A} (a : A) : M A := fun s => (Ok a, s, []).

Definition throw {A} (err : Thrown) : M A := fun s => (Throw err, s, []).

Definition bind {A B} (m : M A) (k : A -> M B) : M B :=
  fun s =>
    match m s with
    | (Ok a, s1, fx1) =>
        match k a s1 with
        | (r, s2, fx2) => (r, s2, fx1 ++ fx2)
        end
    | (Throw err, s1, fx1) => (Throw err, s1, fx1)
    end.

(** [try { body } catch (err) { handler }] *)
Definition try_catch {A} (body : M A) (handler : Thrown -> M A) : M A :=
  fun s =>
    match body s with
    | (Ok a, s1, fx1) => (Ok a, s1, fx1)
    | (Throw err, s1, fx1) =>
        match handler err s1 with
        | (r, s2, fx2) => (r, s2, fx1 ++ fx2)
        end
    end.

(** [try { body } finally { final }], for a [final] that does not return *)
Definition try_finally {A} (body : M A) (final : M unit) : M A :=
  fun s =>
    match body s with
    | (r, s1, fx1) =>
        match final s1 with
        | (Ok _, s2, fx2) => (r, s2, fx1 ++ fx2)
        | (Throw err, s2, fx2) => (Throw err, s2, fx1 ++ fx2)
        end
    end.

Definition randomUUID : M nat :=
  fun s =>
    (Ok (nextUUID s),
     {| nextUUID := S (nextUUID s); clock := clock s;
        cacheStore := cacheStore s; world := world s |},
     []).

Definition Date_now : M float := fun s => (Ok (clock s), s, []).

Definition sink_write (e : TraceEvent) : M unit := fun s => (Ok tt, s, [SinkWrite e]).

Definition sink_close : M unit := fun s => (Ok tt, s, [SinkClose]).

End Runtime.

Arguments State U : clear implicits.
Arguments M U A : clear implicits.

Notation "x <- c1 ;; c2" := (bind c1 (fun x => c2))
  (at level 100, c1 at next level, right associativity).
Notation "c1 ;;; c2" := (bind c1 (fun _ => c2))
  (at level 100, right associativity).

(** ** packages/core *)

Record Cache {U : Type} := {
  get : string -> M U value;
  set : string -> value -> M U unit;
}.
Arguments Cache U : clear implicits.

(** The responder a [ProgrammableLLMClient] is constructed with: the backend.
    It sees the request and the outside world only. *)
Record LLMClientOptions {U : Type} := {
  responder : LLMGenerateArgs -> U -> Outcome LLMResponse * U;
}.
Arguments LLMClientOptions U : clear implicits.

Inductive OnValidationError := on_fail | on_skip.

Record Policies := {
  repairAttempts : option float;
  onValidationError : option OnValidationError;
}.

Module Trace.
Section Trace.
Context {U : Type}.

(** The sink of a trace is the one sink of the run: writes go to the list of
    effects. *)
Record t := {
  runId : RunId;
  spanId : SpanId;
  parentSpanId : option SpanId;
}.

Definition id (self : t) : SpanId := spanId self.
Definition parentId (self : t) : option SpanId := parentSpanId self.
Definition run (self : t) : RunId := runId self.

Definition child (self : t) (name : string) (meta : option value) : M U t :=
  childSpanId <- randomUUID ;;
  now <- Date_now ;;
  sink_write (span_start now (runId self) childSpanId (Some (spanId self)) name meta) ;;;
  ret {| runId := runId self; spanId := childSpanId; parentSpanId := Some (spanId self) |}.

Definition span {T} (self : t) (name : string) (fn : M U T) (meta : option value) : M U T :=
  spanTrace <- child self name meta ;;
  startTs <- Date_now ;;
  try_catch
    (result <- fn ;;
     now <- Date_now ;;
     sink_write (span_end now (runId self) (id spanTrace) (parentId spanTrace) name
                   (PrimFloat.sub now startTs) None) ;;;
     ret result)
    (fun err =>
       now <- Date_now ;;
       sink_write (span_end now (runId self) (id spanTrace) (parentId spanTrace) name
                     (PrimFloat.sub now startTs) (Some (errorText err))) ;;;
       throw err).

Definition event (self : t) (name : string) (metadata : option value) : M U unit :=
  now <- Date_now ;;
  sink_write (event now (runId self) (spanId self) name metadata).

Definition artifact (self : t) (name : string) (data : value) : M U unit :=
  now <- Date_now ;;
  sink_write (artifact now (runId self) (spanId self) name data).

Definition emit (self : t) (e : TraceEvent) : M U unit := sink_write e.

End Trace.
End Trace.

Module RuntimeCtx.
Section RuntimeCtx.
Context {U : Type}.

Record t := {
  runId : RunId;
  spanId : SpanId;
  trace : Trace.t;
  llm : LLMClientOptions U;
  cache : option (Cache U);
  policies : option Policies;
}.

Definition child (self : t) (stepName : string) (meta : option value) : M U t :=
  childTrace <- Trace.child (trace self) stepName meta ;;
  ret {| runId := runId self; spanId := Trace.id childTrace; trace := childTrace;
         llm := llm self; cache := cache self; policies := policies self |}.

End RuntimeCtx.
Arguments t U : clear implicits.
End RuntimeCtx.

Abbreviation Ctx := RuntimeCtx.t.

(** [Step] and [Workflow] are the same interface. *)
Record Step {U : Type} := {
  name : string;
  input : ZodType;
  output : ZodType;
  run : Ctx U -> value -> M U value;
}.
Arguments Step U : clear implicits.

Abbreviation Workflow := Step.

Inductive Status := success | failure.

Record RunRecord := {
  record_runId : RunId;
  target : string;
  status : Status;
  startedAt : float;
  endedAt : float;
  durationMs : float;
}.

Section Core.
Context {U : Type}.

Definition direction_name (direction : Direction) : string :=
  match direction with
  | input_dir => "input"
  | output_dir => "output"
  end.

Definition validateWithZod (schema : ZodType) (v : value) (direction : Direction)
    (trace : Trace.t) (spanId : SpanId) : M U value :=
  match safeParse schema v with
  | parse_failure issues =>
      now <- Date_now ;;
      Trace.emit trace (validation_error now (Trace.run trace) spanId direction issues) ;;;
      throw (ValidationError issues (direction_name direction +:+ " validation failed"))
  | parse_success data => ret data
  end.

Definition defineStep (step : Step U) : Step U :=
  let originalRun := run step in
  {| name := name step;
     input := input step;
     output := output step;
     run := fun ctx i =>
       spanCtx <- RuntimeCtx.child ctx (name step) None ;;
       startedAt <- Date_now ;;
       validatedInput <- validateWithZod (input step) i input_dir
                           (RuntimeCtx.trace spanCtx) (RuntimeCtx.spanId spanCtx) ;;
       try_catch
         (result <- originalRun spanCtx validatedInput ;;
          validatedOutput <- validateWithZod (output step) result output_dir
                               (RuntimeCtx.trace spanCtx) (RuntimeCtx.spanId spanCtx) ;;
          now <- Date_now ;;
          Trace.emit (RuntimeCtx.trace spanCtx)
            (span_end now (Trace.run (RuntimeCtx.trace spanCtx)) (RuntimeCtx.spanId spanCtx)
               (Trace.parentId (RuntimeCtx.trace spanCtx)) (name step)
               (PrimFloat.sub now startedAt) None) ;;;
          ret validatedOutput)
         (fun err =>
            now <- Date_now ;;
            Trace.emit (RuntimeCtx.trace spanCtx)
              (span_end now (Trace.run (RuntimeCtx.trace spanCtx)) (RuntimeCtx.spanId spanCtx)
                 (Trace.parentId (RuntimeCtx.trace spanCtx)) (name step)
                 (PrimFloat.sub now startedAt) (Some (errorText err))) ;;;
            throw err) |}.

Definition defineWorkflow (workflow : Workflow U) : Workflow U :=
  let originalRun := run workflow in
  {| name := name workflow;
     input := input workflow;
     output := output workflow;
     run := fun ctx i =>
       spanCtx <- RuntimeCtx.child ctx (name workflow) None ;;
       startedAt <- Date_now ;;
       validatedInput <- validateWithZod (input workflow) i input_dir
                           (RuntimeCtx.trace spanCtx) (RuntimeCtx.spanId spanCtx) ;;
       try_catch
         (result <- originalRun spanCtx validatedInput ;;
          validatedOutput <- validateWithZod (output workflow) result output_dir
                               (RuntimeCtx.trace spanCtx) (RuntimeCtx.spanId spanCtx) ;;
          now <- Date_now ;;
          Trace.emit (RuntimeCtx.trace spanCtx)
            (span_end now (Trace.run (RuntimeCtx.trace spanCtx)) (RuntimeCtx.spanId spanCtx)
               (Trace.parentId (RuntimeCtx.trace spanCtx)) (name workflow)
               (PrimFloat.sub now startedAt) None) ;;;
          ret validatedOutput)
         (fun err =>
            now <- Date_now ;;
            Trace.emit (RuntimeCtx.trace spanCtx)
              (span_end now (Trace.run (RuntimeCtx.trace spanCtx)) (RuntimeCtx.spanId spanCtx)
                 (Trace.parentId (RuntimeCtx.trace spanCtx)) (name workflow)
                 (PrimFloat.sub now startedAt) (Some (errorText err))) ;;;
            throw err) |}.

Record RuntimeOptions := {
  options_llm : LLMClientOptions U;
  options_cache : option (Cache U);
  options_policies : option Policies;
}.

End Core.
Arguments RuntimeOptions U : clear implicits.

Module createRuntime.
Section createRuntime.
Context {U : Type}.
Variable options : RuntimeOptions U.

Definition run (target : Step U) (i : value) : M U (value * RunRecord) :=
  runId <- randomUUID ;;
  rootSpanId <- randomUUID ;;
  let trace := {| Trace.runId := runId; Trace.spanId := rootSpanId;
                  Trace.parentSpanId := None |} in
  now <- Date_now ;;
  Trace.emit trace (span_start now runId rootSpanId None (name target) None) ;;;
  let ctx := {| RuntimeCtx.runId := runId; RuntimeCtx.spanId := rootSpanId;
                RuntimeCtx.trace := trace; RuntimeCtx.llm := options_llm options;
                RuntimeCtx.cache := options_cache options;
                RuntimeCtx.policies := options_policies options |} in
  startedAt <- Date_now ;;
  let status := success in
  try_catch
    (validatedInput <- validateWithZod (input target) i input_dir trace rootSpanId ;;
     out <- run target ctx validatedInput ;;
     validatedOutput <- validateWithZod (output target) out output_dir trace rootSpanId ;;
     now <- Date_now ;;
     Trace.emit trace (span_end now runId rootSpanId None (name target)
                         (PrimFloat.sub now startedAt) None) ;;;
     endedAt <- Date_now ;;
     now' <- Date_now ;;
     let record := {| record_runId := runId; target := name target; status := status;
                      startedAt := startedAt; endedAt := endedAt;
                      durationMs := PrimFloat.sub now' startedAt |} in
     sink_close ;;;
     ret (validatedOutput, record))
    (fun err =>
       let status := failure in
       now <- Date_now ;;
       Trace.emit trace (span_end now runId rootSpanId None (name target)
                           (PrimFloat.sub now startedAt) (Some (errorText err))) ;;;
       sink_close ;;;
       throw err).

End createRuntime.
End createRuntime.

(** ** packages/llm *)

(** [Array.prototype.sort(compare)]: a stable sort; [a] goes before [b] when
    [compare a b] is negative, and elements that compare equal keep their
    order. *)
Fixpoint sort_insert {A} (compare : A -> A -> comparison) (x : A) (l : list A) : list A :=
  match l with
  | [] => [x]
  | y :: l' =>
      match compare x y with
      | Gt => y :: sort_insert compare x l'
      | _ => x :: l
      end
  end.

Fixpoint Array_sort {A} (compare : A -> A -> comparison) (l : list A) : list A :=
  match l with
  | [] => []
  | x :: l' => sort_insert compare x (Array_sort compare l')
  end.

(** [Array.prototype.join(",")] on strings *)
Definition Array_join (items : list string) : string := String.concat "," items.

(** An element of an array that is [undefined] joins as the empty string; in
    a template literal [undefined] reads "undefined". *)
Definition join_item (r : option string) : string := default "" r.
Definition template_item (r : option string) : string := default "undefined" r.

Definition opt_str (o : option string) : value :=
  match o with Some s => VStr s | None => VUndefined end.

Definition opt_num (o : option float) : value :=
  match o with Some n => VNum n | None => VUndefined end.

Definition Tokens_value (t : option Tokens) : value :=
  match t with
  | Some t => VObj [("in", opt_num (tokens_in t)); ("out", opt_num (tokens_out t))]
  | None => VUndefined
  end.

(** The result object of a generation call as the value the cache stores
    and the call returns. *)
Definition LLMGenerateResult_value (r : LLMGenerateResult) : value :=
  VObj [("raw", VStr (raw r)); ("parsed", parsed r);
        ("tokens", Tokens_value (tokens r)); ("costUsd", opt_num (costUsd r))].

Section LLM.
Context {host : Host} {U : Type}.

(** [JSON.stringify(value)] where [value === null || typeof value !== "object"] *)
Definition JSON_stringify (v : value) : option string :=
  match v with
  | VUndefined => None
  | VNull => Some "null"
  | VBool true => Some "true"
  | VBool false => Some "false"
  | VNum n => Some (JSON_stringify_number n)
  | VStr s => Some (JSON_stringify_string s)
  | VArr _ | VObj _ => None
  end.

Definition compare_keys {A} (a b : string * A) : comparison :=
  localeCompare (fst a) (fst b).

Definition render_entry (kv : string * option string) : string :=
  JSON_stringify_string (fst kv) +:+ ":" +:+ template_item (snd kv).

(** The entries of an object are sorted by key and then rendered.  The
    comparison looks at keys only, so the values are rendered before the
    sort here, which keeps the recursion structural; [stableStringify_object]
    below is the source's line, with the sort first. *)
Fixpoint stableStringify (v : value) : option string :=
  match v with
  | VArr items =>
      Some ("[" +:+ Array_join (map (fun v => join_item (stableStringify v)) items) +:+ "]")
  | VObj entries =>
      Some ("{" +:+ Array_join (map render_entry
                      (Array_sort compare_keys
                         (map (fun kv => (fst kv, stableStringify (snd kv))) entries)))
                +:+ "}")
  | _ => JSON_stringify v
  end.

Definition cacheKey_request (args : LLMGenerateArgs) : value :=
  VObj [("provider", VStr "programmable");
        ("model", VStr (model args));
        ("messages", VArr (messages args));
        ("schema", opt_str (sch ← schema args; toString sch));
        ("temperature", VNum (default 0%float (temperature args)));
        ("maxTokens", opt_num (maxTokens args));
        ("tools", VArr (default [] (tools args)))].

Definition cacheKey (args : LLMGenerateArgs) : string :=
  default "" (stableStringify (cacheKey_request args)).

Definition parseWithSchema (schema : ZodType) (raw : string) : M U value :=
  let candidate :=
    match JSON_parse raw with
    | Some v => v
    | None => VStr raw
    end in
  match safeParse schema candidate with
  | parse_failure issues =>
      throw (ValidationError issues "LLM output failed schema validation")
  | parse_success data => ret data
  end.

Definition maybeGet (cache : option (Cache U)) (key : string) : M U value :=
  match cache with
  | None => ret VUndefined
  | Some c => get c key
  end.

Definition maybeSet (cache : option (Cache U)) (key : string) (v : value) : M U unit :=
  match cache with
  | None => ret tt
  | Some c => set c key v
  end.

(** [this.options.responder(args)] *)
Definition call_responder (options : LLMClientOptions U) (args : LLMGenerateArgs)
    : M U LLMResponse :=
  fun s =>
    match responder options args (world s) with
    | (r, w) =>
        (r,
         {| nextUUID := nextUUID s; clock := clock s; cacheStore := cacheStore s;
            world := w |},
         [Respond args])
    end.

Definition generate (options : LLMClientOptions U) (ctx : Ctx U) (args : LLMGenerateArgs)
    : M U value :=
  let cacheKey := cacheKey args in
  cached <- maybeGet (RuntimeCtx.cache ctx) cacheKey ;;
  if truthy cached then ret cached
  else
    startedAt <- Date_now ;;
    try_finally
      (try_catch
         (response <- call_responder options args ;;
          parsed <- match schema args with
                    | Some sch => parseWithSchema sch (response_raw response)
                    | None => ret VUndefined
                    end ;;
          let result := {| raw := response_raw response; parsed := parsed;
                           tokens := response_tokens response;
                           costUsd := response_costUsd response |} in
          now <- Date_now ;;
          Trace.emit (RuntimeCtx.trace ctx)
            (llm_call now (RuntimeCtx.runId ctx) (RuntimeCtx.spanId ctx) (model args)
               (Some {| params_temperature := temperature args;
                        params_maxTokens := maxTokens args |})
               (Some (response_raw response)) parsed None
               (response_tokens response) (response_costUsd response)) ;;;
          maybeSet (RuntimeCtx.cache ctx) cacheKey (LLMGenerateResult_value result) ;;;
          ret (LLMGenerateResult_value result))
         (fun err =>
            now <- Date_now ;;
            Trace.emit (RuntimeCtx.trace ctx)
              (llm_call now (RuntimeCtx.runId ctx) (RuntimeCtx.spanId ctx) (model args)
                 None None VUndefined (Some (errorText err)) None None) ;;;
            throw err))
      (now <- Date_now ;;
       Trace.event (RuntimeCtx.trace ctx) "llm_call_complete"
         (Some (VObj [("durationMs", VNum (PrimFloat.sub now startedAt))]))).

(** Modelled from the spec: the cache collaborator (section 6: [get(key)]
    gives the value or absent, [set(key, value)] stores it), of which the
    repository fixes the interface [Cache] only.  It is a key to value store
    kept in memory. *)
Definition memoryCache : Cache U :=
  {| get := fun key s => (Ok (default VUndefined (cacheStore s !! key)), s, []);
     set := fun key v s =>
       (Ok tt,
        {| nextUUID := nextUUID s; clock := clock s;
           cacheStore := <[key := v]> (cacheStore s); world := world s |},
        []) |}.

End LLM.

(** ** packages/eval *)

Record Case := {
  case_id : string;
  case_input : value;
  case_tags : option (list string);
  case_expected : value;          (* [VUndefined] when the case has none *)
  case_rubric : option string;
  case_metadata : option value;
}.

Record Dataset := {
  dataset_name : string;
  dataset_cases : list Case;
}.

Record Score := {
  (** [Object.entries(score.metrics)], in the object's key order *)
  score_metrics : list (string * float);
  score_notes : option string;
  score_artifacts : option value;
}.

(** A judge gets [{ input, output, expected, trace: {} }]. *)
Definition Judge := value -> value -> value -> Score.

Record EvalSpec {U : Type} := {
  spec_name : string;
  spec_target : Step U;
  spec_dataset : Dataset;
  spec_judges : list Judge;
  (** [Object.entries(spec.thresholds)] *)
  spec_thresholds : list (string * float);
}.
Arguments EvalSpec U : clear implicits.

Definition defineEval {U} (spec : EvalSpec U) : EvalSpec U := spec.

Record EvalCaseResult := {
  result_id : string;
  result_metrics : gmap string float;
  result_notes : option (list string);
  result_artifacts : option (list value);
}.

Record EvalRunResult := {
  run_name : string;
  run_dataset : string;
  run_cases : list EvalCaseResult;
  run_aggregates : gmap string float;
  run_passed : bool;
}.

(** [values.length] as a number *)
Fixpoint Number_of_nat (n : nat) : float :=
  match n with
  | O => 0%float
  | S n' => PrimFloat.add (Number_of_nat n') 1%float
  end.

(** [values.reduce((a, b) => a + b, 0) / values.length] *)
Definition mean (values : list float) : float :=
  PrimFloat.div (fold_left PrimFloat.add values 0%float) (Number_of_nat (length values)).

(** The names of the properties that a plain object inherits from
    [Object.prototype]: reading one of them on an object without an own
    property of that name gives the inherited value, not [undefined]. *)
Definition Object_prototype_keys : list string :=
  ["constructor"; "__defineGetter__"; "__defineSetter__"; "hasOwnProperty";
   "__lookupGetter__"; "__lookupSetter__"; "isPrototypeOf"; "propertyIsEnumerable";
   "toString"; "valueOf"; "__proto__"; "toLocaleString"].

Definition inherited (k : string) : bool :=
  existsb (String.eqb k) Object_prototype_keys.

(** A [TypeError] is an error with a message. *)
Definition TypeError (message : string) : Thrown := Error message.

Section Eval.
Context {U : Type}.

(** What one judge's score does to the accumulators of the case. *)
Record JudgeAcc := {
  acc_aggregates : gmap string (list float);
  acc_metrics : gmap string float;
  acc_notes : list string;
  acc_artifacts : list value;
}.

(** The body of [Object.entries(score.metrics).forEach(([k, v]) => ...)].
    The maps hold the own properties of the objects [aggregates] and
    [metrics], which are made as [{}].  Without an own property [k], for a
    name [k] of [Object.prototype], [aggregates[k] ?? []] is the inherited
    value (a function, or the prototype itself for [__proto__]), which is
    what [aggregates[k]] then is, and [aggregates[k].push(v)] throws a
    [TypeError], as it has no [push]. *)
Definition record_metric (acc : gmap string (list float) * gmap string float)
    (kv : string * float) : Outcome (gmap string (list float) * gmap string float) :=
  let aggregates := fst acc in
  let metrics := snd acc in
  let k := fst kv in
  let v := snd kv in
  match aggregates !! k with
  | Some values => Ok (<[k := values ++ [v]]> aggregates, <[k := v]> metrics)
  | None =>
      if inherited k then Throw (TypeError "aggregates[k].push is not a function")
      else Ok (<[k := [v]]> aggregates, <[k := v]> metrics)
  end.

(** [Object.entries(score.metrics).forEach(...)] *)
Fixpoint record_metrics (entries : list (string * float))
    (acc : gmap string (list float) * gmap string float)
    : Outcome (gmap string (list float) * gmap string float) :=
  match entries with
  | [] => Ok acc
  | kv :: rest =>
      match record_metric acc kv with
      | Ok acc' => record_metrics rest acc'
      | Throw err => Throw err
      end
  end.

(** The body of [for (const judge of spec.judges)] *)
Definition judge_step (c : Case) (out : value) (acc : JudgeAcc) (judge : Judge)
    : Outcome JudgeAcc :=
  let score := judge (case_input c) out (case_expected c) in
  match record_metrics (score_metrics score) (acc_aggregates acc, acc_metrics acc) with
  | Throw err => Throw err
  | Ok am =>
      Ok {| acc_aggregates := fst am;
            acc_metrics := snd am;
            acc_notes :=
              match score_notes score with
              | Some n => if String.eqb n "" then acc_notes acc else acc_notes acc ++ [n]
              | None => acc_notes acc
              end;
            acc_artifacts :=
              match score_artifacts score with
              | Some a => acc_artifacts acc ++ [a]
              | None => acc_artifacts acc
              end |}
  end.

(** [for (const judge of spec.judges) { ... }] *)
Fixpoint judge_steps (c : Case) (out : value) (judges : list Judge) (acc : JudgeAcc)
    : Outcome JudgeAcc :=
  match judges with
  | [] => Ok acc
  | judge :: rest =>
      match judge_step c out acc judge with
      | Ok acc' => judge_steps c out rest acc'
      | Throw err => Throw err
      end
  end.

Definition nonempty {A} (l : list A) : option (list A) :=
  match l with
  | [] => None
  | _ => Some l
  end.

(** The body of [for (const c of spec.dataset.cases)], after the run of the
    target gave [out]. *)
Definition case_step (spec : EvalSpec U) (c : Case) (out : value)
    (acc : list EvalCaseResult * gmap string (list float))
    : Outcome (list EvalCaseResult * gmap string (list float)) :=
  match judge_steps c out (spec_judges spec)
          {| acc_aggregates := snd acc; acc_metrics := ∅;
             acc_notes := []; acc_artifacts := [] |} with
  | Throw err => Throw err
  | Ok r =>
      Ok (fst acc ++ [{| result_id := case_id c; result_metrics := acc_metrics r;
                         result_notes := nonempty (acc_notes r);
                         result_artifacts := nonempty (acc_artifacts r) |}],
          acc_aggregates r)
  end.

(** A step that computes without the collaborators, or throws. *)
Definition of_outcome {A} (o : Outcome A) : M U A := fun s => (o, s, []).

Fixpoint eval_cases (spec : EvalSpec U)
    (runtime_run : Step U -> value -> M U (value * RunRecord))
    (cases : list Case) (acc : list EvalCaseResult * gmap string (list float))
    : M U (list EvalCaseResult * gmap string (list float)) :=
  match cases with
  | [] => ret acc
  | c :: rest =>
      r <- runtime_run (spec_target spec) (case_input c) ;;
      acc' <- of_outcome (case_step spec c (fst r) acc) ;;
      eval_cases spec runtime_run rest acc'
  end.

(** [achieved !== undefined && achieved >= threshold], where [achieved] is
    [aggregateSummary[metric]]: the own property when there is one;
    otherwise, for a name of [Object.prototype], the inherited value, which
    is not [undefined] and which [>=] compares as NaN with the threshold. *)
Definition threshold_met (aggregateSummary : gmap string float)
    (entry : string * float) : bool :=
  let metric := fst entry in
  let threshold := snd entry in
  match aggregateSummary !! metric with
  | Some achieved => PrimFloat.leb threshold achieved
  | None => if inherited metric then false else false
  end.

Definition runEval (spec : EvalSpec U)
    (runtime_run : Step U -> value -> M U (value * RunRecord)) : M U EvalRunResult :=
  r <- eval_cases spec runtime_run (dataset_cases (spec_dataset spec)) ([], ∅) ;;
  let cases := fst r in
  let aggregates := snd r in
  let aggregateSummary : gmap string float := mean <$> aggregates in
  let passed := forallb (threshold_met aggregateSummary) (spec_thresholds spec) in
  ret {| run_name := spec_name spec;
         run_dataset := dataset_name (spec_dataset spec);
         run_cases := cases;
         run_aggregates := aggregateSummary;
         run_passed := passed |}.

End Eval.

(** ** Vocabulary of the properties *)

Section EvalVocabulary.
Context {U : Type}.

(** The outputs of running the target on the inputs of the cases, one run
    after the other. *)
Fixpoint run_targets (target : Step U)
    (runtime_run : Step U -> value -> M U (value * RunRecord))
    (cases : list Case) : M U (list value) :=
  match cases with
  | [] => ret []
  | c :: rest =>
      r <- runtime_run target (case_input c) ;;
      outs <- run_targets target runtime_run rest ;;
      ret (fst r :: outs)
  end.

(** The values that a list of metric entries holds for the metric [k]. *)
Fixpoint values_of (k : string) (entries : list (string * float)) : list float :=
  match entries with
  | [] => []
  | kv :: rest =>
      if String.eqb (fst kv) k then snd kv :: values_of k rest else values_of k rest
  end.

(** The metric entries of one judge on one case. *)
Definition judged_by (c : Case) (out : value) (judge : Judge) : list (string * float) :=
  score_metrics (judge (case_input c) out (case_expected c)).

(** The values recorded for [k] in one case: those of every judge, in the
    order of the judges. *)
Definition case_values (k : string) (judges : list Judge) (c : Case) (out : value)
    : list float :=
  flat_map (fun judge => values_of k (judged_by c out judge)) judges.

(** The values recorded for [k] over the cases, each with its output. *)
Definition recorded (k : string) (judges : list Judge) (cos : list (Case * value))
    : list float :=
  flat_map (fun co => case_values k judges (fst co) (snd co)) cos.

(** A metric name has an aggregate exactly when some value was recorded for
    it, and the aggregate is then the mean of the recorded values. *)
Definition mean_of_recorded (values : list float) : option float :=
  match values with
  | [] => None
  | _ => Some (mean values)
  end.

(** What the three steps of the evaluation do when nothing throws. *)
Definition record_metric_total (acc : gmap string (list float) * gmap string float)
    (kv : string * float) : gmap string (list float) * gmap string float :=
  let aggregates := fst acc in
  let metrics := snd acc in
  let k := fst kv in
  let v := snd kv in
  let aggregates := <[k := default [] (aggregates !! k)]> aggregates in
  let aggregates := <[k := default [] (aggregates !! k) ++ [v]]> aggregates in
  let metrics := <[k := v]> metrics in
  (aggregates, metrics).

Definition judge_step_total (c : Case) (out : value) (acc : JudgeAcc) (judge : Judge)
    : JudgeAcc :=
  let score := judge (case_input c) out (case_expected c) in
  let am := fold_left record_metric_total (score_metrics score)
              (acc_aggregates acc, acc_metrics acc) in
  {| acc_aggregates := fst am;
     acc_metrics := snd am;
     acc_notes :=
       match score_notes score with
       | Some n => if String.eqb n "" then acc_notes acc else acc_notes acc ++ [n]
       | None => acc_notes acc
       end;
     acc_artifacts :=
       match score_artifacts score with
       | Some a => acc_artifacts acc ++ [a]
       | None => acc_artifacts acc
       end |}.

Definition case_step_total (spec : EvalSpec U) (c : Case) (out : value)
    (acc : list EvalCaseResult * gmap string (list float))
    : list EvalCaseResult * gmap string (list float) :=
  let r := fold_left (judge_step_total c out) (spec_judges spec)
             {| acc_aggregates := snd acc; acc_metrics := ∅;
                acc_notes := []; acc_artifacts := [] |} in
  (fst acc ++ [{| result_id := case_id c; result_metrics := acc_metrics r;
                  result_notes := nonempty (acc_notes r);
                  result_artifacts := nonempty (acc_artifacts r) |}],
   acc_aggregates r).

(** No judge reports, on the case [c] with the output [out], a metric named
    like a property of [Object.prototype]. *)
Definition plain_metric_names (judges : list Judge) (c : Case) (out : value) : Prop :=
  Forall (fun kv => inherited (fst kv) = false) (flat_map (judged_by c out) judges).

Definition plain_names (judges : list Judge) (cos : list (Case * value)) : Prop :=
  Forall (fun co => plain_metric_names judges (fst co) (snd co)) cos.

End EvalVocabulary.

(** * Properties *)

(** ** The monad *)

Section MonadFacts.
Context {U : Type}.

Lemma bind_Ok {A B} (m : M U A) (k : A -> M U B) s a s1 fx1 :
  m s = (Ok a, s1, fx1) ->
  bind m k s = (let '(r, s2, fx2) := k a s1 in (r, s2, fx1 ++ fx2)).
Proof. intros Hm. unfold bind. rewrite Hm. reflexivity. Qed.

Lemma bind_Throw {A B} (m : M U A) (k : A -> M U B) s err s1 fx1 :
  m s = (Throw err, s1, fx1) ->
  bind m k s = (Throw err, s1, fx1).
Proof. intros Hm. unfold bind. rewrite Hm. reflexivity. Qed.

End MonadFacts.

(** ** Evaluation harness *)

Section EvalFacts.
Context {U : Type}.

(** What recording values does to the list kept for a metric. *)
Definition extend (o : option (list float)) (vs : list float) : option (list float) :=
  match vs with
  | [] => o
  | _ => Some (default [] o ++ vs)
  end.

Lemma extend_app o vs1 vs2 : extend (extend o vs1) vs2 = extend o (vs1 ++ vs2).
Proof.
  destruct vs1 as [|v1 vs1]; [reflexivity|].
  destruct vs2 as [|v2 vs2]; simpl.
  - by rewrite app_nil_r.
  - by rewrite <- app_assoc.
Qed.

Lemma values_of_app k es1 es2 :
  values_of k (es1 ++ es2) = values_of k es1 ++ values_of k es2.
Proof.
  induction es1 as [|kv es1 IH]; simpl; [reflexivity|].
  destruct (String.eqb (fst kv) k); simpl; by rewrite IH.
Qed.

Lemma record_metric_aggregates acc kv k :
  fst (record_metric_total acc kv) !! k = extend (fst acc !! k) (values_of k [kv]).
Proof.
  unfold record_metric_total. simpl.
  destruct (String.eqb (fst kv) k) eqn:E.
  - apply String.eqb_eq in E. subst k. simpl.
    by rewrite !lookup_insert_eq.
  - apply String.eqb_neq in E. simpl.
    by rewrite !lookup_insert_ne.
Qed.

Lemma record_metric_metrics acc kv k :
  snd (record_metric_total acc kv) !! k =
  if String.eqb (fst kv) k then Some (snd kv) else snd acc !! k.
Proof.
  unfold record_metric_total. simpl.
  destruct (String.eqb (fst kv) k) eqn:E.
  - apply String.eqb_eq in E. subst k. by rewrite lookup_insert_eq.
  - apply String.eqb_neq in E. by rewrite lookup_insert_ne.
Qed.

Lemma record_metrics_aggregates es acc k :
  fst (fold_left record_metric_total es acc) !! k = extend (fst acc !! k) (values_of k es).
Proof.
  revert acc. induction es as [|kv es IH]; intros acc; [reflexivity|].
  change (kv :: es) with ([kv] ++ es).
  rewrite values_of_app, <- extend_app. simpl fold_left.
  by rewrite IH, record_metric_aggregates.
Qed.

Lemma record_metrics_metrics es acc k :
  snd (fold_left record_metric_total es acc) !! k =
  match last (values_of k es) with
  | Some v => Some v
  | None => snd acc !! k
  end.
Proof.
  revert acc. induction es as [|kv es IH]; intros acc; [reflexivity|].
  simpl fold_left. rewrite IH, record_metric_metrics. simpl.
  destruct (String.eqb (fst kv) k).
  - rewrite last_cons. by destruct (last (values_of k es)).
  - reflexivity.
Qed.

Lemma values_of_flat_map {A} k (f : A -> list (string * float)) (l : list A) :
  values_of k (flat_map f l) = flat_map (fun a => values_of k (f a)) l.
Proof.
  induction l as [|a l IH]; simpl; [reflexivity|].
  by rewrite values_of_app, IH.
Qed.

Lemma judge_steps_metrics c out judges acc :
  let r := fold_left (judge_step_total c out) judges acc in
  (acc_aggregates r, acc_metrics r) =
  fold_left record_metric_total (flat_map (judged_by c out) judges)
    (acc_aggregates acc, acc_metrics acc).
Proof.
  revert acc. induction judges as [|j judges IH]; intros acc; simpl; [reflexivity|].
  rewrite fold_left_app, IH. f_equal.
  unfold judge_step_total, judged_by. simpl. by rewrite <- surjective_pairing.
Qed.

Lemma case_step_aggregates (spec : EvalSpec U) c out acc k :
  snd (case_step_total spec c out acc) !! k =
  extend (snd acc !! k) (case_values k (spec_judges spec) c out).
Proof.
  unfold case_step_total. simpl.
  pose proof (judge_steps_metrics c out (spec_judges spec)
                {| acc_aggregates := snd acc; acc_metrics := ∅;
                   acc_notes := []; acc_artifacts := [] |}) as H.
  simpl in H. apply (f_equal fst) in H. simpl in H. rewrite H.
  rewrite record_metrics_aggregates. simpl.
  unfold case_values. by rewrite values_of_flat_map.
Qed.

Lemma case_step_cases (spec : EvalSpec U) c out acc :
  exists cr,
    fst (case_step_total spec c out acc) = fst acc ++ [cr] /\
    result_id cr = case_id c /\
    forall k, result_metrics cr !! k = last (case_values k (spec_judges spec) c out).
Proof.
  unfold case_step_total. simpl. eexists. split; [reflexivity|]. split; [reflexivity|].
  intros k. simpl.
  pose proof (judge_steps_metrics c out (spec_judges spec)
                {| acc_aggregates := snd acc; acc_metrics := ∅;
                   acc_notes := []; acc_artifacts := [] |}) as H.
  simpl in H. apply (f_equal snd) in H. simpl in H. rewrite H.
  rewrite record_metrics_metrics. simpl. rewrite lookup_empty.
  unfold case_values. rewrite values_of_flat_map.
  by destruct (last _).
Qed.

(** The accumulators after the cases [cos], each with the output of its run. *)
Definition eval_fold (spec : EvalSpec U) (cos : list (Case * value))
    (acc : list EvalCaseResult * gmap string (list float)) :=
  fold_left (fun acc co => case_step_total spec (fst co) (snd co) acc) cos acc.

Lemma eval_fold_aggregates spec cos acc k :
  snd (eval_fold spec cos acc) !! k =
  extend (snd acc !! k) (recorded k (spec_judges spec) cos).
Proof.
  revert acc. induction cos as [|co cos IH]; intros acc; [reflexivity|].
  unfold eval_fold in *. simpl fold_left. rewrite IH, case_step_aggregates.
  by rewrite extend_app.
Qed.

Lemma eval_fold_cases spec cos acc i co :
  cos !! i = Some co ->
  exists cr,
    fst (eval_fold spec cos acc) !! (length (fst acc) + i) = Some cr /\
    result_id cr = case_id (fst co) /\
    forall k, result_metrics cr !! k =
              last (case_values k (spec_judges spec) (fst co) (snd co)).
Proof.
  assert (Hkeep : forall cos acc j cr,
            fst acc !! j = Some cr -> fst (eval_fold spec cos acc) !! j = Some cr).
  { clear. intros cos. induction cos as [|co cos IH]; intros acc j cr Hj; [exact Hj|].
    unfold eval_fold in *. simpl fold_left. apply IH.
    destruct (case_step_cases spec (fst co) (snd co) acc) as (cr' & -> & _).
    by apply lookup_app_l_Some. }
  revert acc i. induction cos as [|co' cos IH]; intros acc i Hi; [done|].
  destruct i as [|i]; simpl in Hi.
  - injection Hi as ->.
    destruct (case_step_cases spec (fst co) (snd co) acc) as (cr & Hfst & Hid & Hm).
    exists cr. split; [|by split].
    unfold eval_fold. simpl fold_left. apply Hkeep. rewrite Hfst.
    rewrite Nat.add_0_r. by rewrite lookup_app_r, Nat.sub_diag.
  - destruct (case_step_cases spec (fst co') (snd co') acc) as (cr' & Hfst & _).
    destruct (IH (case_step_total spec (fst co') (snd co') acc) i Hi) as (cr & Hl & Hrest).
    exists cr. split; [|exact Hrest].
    unfold eval_fold in *. simpl fold_left.
    rewrite Hfst, length_app in Hl. simpl in Hl.
    by replace (length (fst acc) + S i) with (length (fst acc) + 1 + i) by lia.
Qed.


(** The steps of the evaluation against what they do when nothing throws. *)
Lemma record_metric_total_inserts acc kv :
  record_metric_total acc kv =
  (<[fst kv := default [] (fst acc !! fst kv) ++ [snd kv]]> (fst acc),
   <[fst kv := snd kv]> (snd acc)).
Proof.
  unfold record_metric_total. cbv zeta. by rewrite lookup_insert_eq, insert_insert_eq.
Qed.

Lemma record_metric_Ok acc kv acc' :
  record_metric acc kv = Ok acc' -> acc' = record_metric_total acc kv.
Proof.
  rewrite record_metric_total_inserts. unfold record_metric. cbv zeta.
  destruct (fst acc !! fst kv) as [values|]; simpl.
  - by intros [= <-].
  - destruct (inherited (fst kv)); [done|]. by intros [= <-].
Qed.

Lemma record_metric_plain acc kv :
  inherited (fst kv) = false -> record_metric acc kv = Ok (record_metric_total acc kv).
Proof.
  intros H. rewrite record_metric_total_inserts. unfold record_metric. cbv zeta.
  rewrite H. by destruct (fst acc !! fst kv).
Qed.

Lemma record_metrics_app es1 es2 acc :
  record_metrics (es1 ++ es2) acc =
  match record_metrics es1 acc with
  | Ok acc' => record_metrics es2 acc'
  | Throw err => Throw err
  end.
Proof.
  revert acc. induction es1 as [|kv es1 IH]; intros acc; [reflexivity|].
  simpl. destruct (record_metric acc kv); [apply IH|reflexivity].
Qed.

Lemma record_metrics_Ok es acc acc' :
  record_metrics es acc = Ok acc' -> acc' = fold_left record_metric_total es acc.
Proof.
  revert acc. induction es as [|kv es IH]; intros acc; simpl.
  - by intros [= <-].
  - destruct (record_metric acc kv) as [acc1|] eqn:E; [|done].
    apply record_metric_Ok in E. subst acc1. apply IH.
Qed.

Lemma record_metrics_plain es acc :
  Forall (fun kv => inherited (fst kv) = false) es ->
  record_metrics es acc = Ok (fold_left record_metric_total es acc).
Proof.
  intros H. revert acc. induction H as [|kv es Hkv _ IH]; intros acc; [reflexivity|].
  simpl. rewrite (record_metric_plain acc kv Hkv). apply IH.
Qed.

Lemma judge_step_Ok c out acc judge r :
  judge_step c out acc judge = Ok r -> r = judge_step_total c out acc judge.
Proof.
  unfold judge_step, judge_step_total. cbv zeta.
  destruct (record_metrics _ _) as [am|] eqn:E; [|done].
  apply record_metrics_Ok in E. subst am. by intros [= <-].
Qed.

Lemma judge_step_plain c out acc judge :
  Forall (fun kv => inherited (fst kv) = false) (judged_by c out judge) ->
  judge_step c out acc judge = Ok (judge_step_total c out acc judge).
Proof.
  intros H. unfold judge_step, judge_step_total, judged_by in *. cbv zeta.
  by rewrite (record_metrics_plain _ _ H).
Qed.

Lemma judge_steps_Ok c out judges acc r :
  judge_steps c out judges acc = Ok r -> r = fold_left (judge_step_total c out) judges acc.
Proof.
  revert acc. induction judges as [|j judges IH]; intros acc; simpl.
  - by intros [= <-].
  - destruct (judge_step c out acc j) as [acc1|] eqn:E; [|done].
    apply judge_step_Ok in E. subst acc1. apply IH.
Qed.

Lemma judge_steps_plain c out judges acc :
  plain_metric_names judges c out ->
  judge_steps c out judges acc = Ok (fold_left (judge_step_total c out) judges acc).
Proof.
  unfold plain_metric_names. revert acc.
  induction judges as [|j judges IH]; intros acc H; [reflexivity|].
  simpl in *. apply Forall_app in H as [Hj Hrest].
  rewrite (judge_step_plain c out acc j Hj). by apply IH.
Qed.

Lemma case_step_Ok (spec : EvalSpec U) c out acc acc' :
  case_step spec c out acc = Ok acc' -> acc' = case_step_total spec c out acc.
Proof.
  unfold case_step, case_step_total. cbv zeta.
  destruct (judge_steps _ _ _ _) as [r|] eqn:E; [|done].
  apply judge_steps_Ok in E. subst r. by intros [= <-].
Qed.

Lemma case_step_plain (spec : EvalSpec U) c out acc :
  plain_metric_names (spec_judges spec) c out ->
  case_step spec c out acc = Ok (case_step_total spec c out acc).
Proof.
  intros H. unfold case_step, case_step_total. cbv zeta.
  by rewrite (judge_steps_plain c out _ _ H).
Qed.

Lemma eval_cases_returns (spec : EvalSpec U) rt cases acc s outs s' fx :
  run_targets (spec_target spec) rt cases s = (Ok outs, s', fx) ->
  plain_names (spec_judges spec) (zip cases outs) ->
  eval_cases spec rt cases acc s = (Ok (eval_fold spec (zip cases outs) acc), s', fx).
Proof.
  revert acc s outs s' fx.
  induction cases as [|c cases IH]; intros acc s outs s' fx H Hplain.
  - by injection H as <- <- <-.
  - simpl in *. unfold bind in *.
    destruct (rt (spec_target spec) (case_input c) s) as [[[r|e] s1] fx1]; [|done].
    destruct (run_targets (spec_target spec) rt cases s1) as [[[outs'|e] s2] fx2] eqn:E;
      [|done].
    simpl in H. injection H as <- <- <-. simpl in Hplain.
    apply Forall_cons in Hplain as [Hc Hrest]. simpl in Hc.
    unfold of_outcome. rewrite (case_step_plain spec c (fst r) acc Hc).
    rewrite (IH _ _ _ _ _ E Hrest). by rewrite app_nil_r.
Qed.

Lemma eval_cases_Ok (spec : EvalSpec U) rt cases acc s acc' s' fx :
  eval_cases spec rt cases acc s = (Ok acc', s', fx) ->
  exists outs,
    run_targets (spec_target spec) rt cases s = (Ok outs, s', fx) /\
    acc' = eval_fold spec (zip cases outs) acc.
Proof.
  revert acc s acc' s' fx.
  induction cases as [|c cases IH]; intros acc s acc' s' fx H.
  - injection H as <- <- <-. by exists [].
  - simpl in *. unfold bind in *.
    destruct (rt (spec_target spec) (case_input c) s) as [[[r|e] s1] fx1]; [|done].
    unfold of_outcome in H.
    destruct (case_step spec c (fst r) acc) as [acc1|e] eqn:Ec; [|done].
    apply case_step_Ok in Ec. subst acc1.
    destruct (eval_cases spec rt cases _ s1) as [[[acc2|e] s2] fx2] eqn:E; [|done].
    simpl in H. injection H as <- <- <-.
    destruct (IH _ _ _ _ _ E) as (outs & Hrun & ->).
    exists (fst r :: outs). rewrite Hrun. simpl. by rewrite app_nil_r.
Qed.

Lemma runEval_run_targets (spec : EvalSpec U) rt s outs s' fx :
  run_targets (spec_target spec) rt (dataset_cases (spec_dataset spec)) s
    = (Ok outs, s', fx) ->
  plain_names (spec_judges spec) (zip (dataset_cases (spec_dataset spec)) outs) ->
  let r := eval_fold spec (zip (dataset_cases (spec_dataset spec)) outs) ([], ∅) in
  runEval spec rt s =
  (Ok {| run_name := spec_name spec;
         run_dataset := dataset_name (spec_dataset spec);
         run_cases := fst r;
         run_aggregates := mean <$> snd r;
         run_passed := forallb (threshold_met (mean <$> snd r)) (spec_thresholds spec) |},
   s', fx).
Proof.
  intros H Hplain r. unfold runEval, bind.
  rewrite (eval_cases_returns spec rt _ _ _ _ _ _ H Hplain).
  simpl. by rewrite app_nil_r.
Qed.

Lemma runEval_Ok (spec : EvalSpec U) rt s r s' fx :
  runEval spec rt s = (Ok r, s', fx) ->
  exists outs,
    run_targets (spec_target spec) rt (dataset_cases (spec_dataset spec)) s
      = (Ok outs, s', fx) /\
    let acc := eval_fold spec (zip (dataset_cases (spec_dataset spec)) outs) ([], ∅) in
    r = {| run_name := spec_name spec;
           run_dataset := dataset_name (spec_dataset spec);
           run_cases := fst acc;
           run_aggregates := mean <$> snd acc;
           run_passed := forallb (threshold_met (mean <$> snd acc))
                           (spec_thresholds spec) |}.
Proof.
  unfold runEval, bind.
  destruct (eval_cases spec rt _ _ s) as [[[acc|e] s1] fx1] eqn:E; [|done].
  simpl. intros [= <- <- <-].
  destruct (eval_cases_Ok spec rt _ _ _ _ _ _ E) as (outs & Hrun & ->).
  exists outs. split; [by rewrite app_nil_r|reflexivity].
Qed.

Lemma aggregates_recorded (spec : EvalSpec U) cos k :
  (mean <$> snd (eval_fold spec cos ([], ∅))) !! k =
  mean_of_recorded (recorded k (spec_judges spec) cos).
Proof.
  rewrite lookup_fmap, eval_fold_aggregates. simpl. rewrite lookup_empty.
  by destruct (recorded k (spec_judges spec) cos).
Qed.

End EvalFacts.

(** ** Data of the examples *)

Definition anySchema : ZodType :=
  {| safeParse := fun v => parse_success v; toString := Some "[object Object]" |}.

(** A schema for a non-empty string: [z.string().min(1)]. *)
Definition nonEmptyString : ZodType :=
  {| safeParse := fun v =>
       match v with
       | VStr s => if String.eqb s "" then parse_failure (VArr [VStr "too_small"])
                   else parse_success v
       | _ => parse_failure (VArr [VStr "invalid_type"])
       end;
     toString := Some "[object Object]" |}.

Definition staticLLM (response : string) : LLMClientOptions unit :=
  {| responder := fun _ w =>
       (Ok {| response_raw := response; response_tokens := None;
              response_costUsd := None |}, w) |}.

Definition echoStep : Step unit :=
  {| name := "echo"; input := anySchema; output := anySchema;
     run := fun _ i => ret i |}.

Definition plainOptions : RuntimeOptions unit :=
  {| options_llm := staticLLM "ok"; options_cache := None; options_policies := None |}.

Definition state0 : State unit :=
  {| nextUUID := 0; clock := 0%float; cacheStore := ∅; world := tt |}.

Definition mkCase (id : string) (expected : value) : Case :=
  {| case_id := id; case_input := VStr id; case_tags := None;
     case_expected := expected; case_rubric := None; case_metadata := None |}.

(** A judge that reports the expected number of the case under a metric name. *)
Definition expectedJudge (metric : string) : Judge :=
  fun _ _ expected =>
    {| score_metrics := [(metric, match expected with VNum n => n | _ => 0%float end)];
       score_notes := None; score_artifacts := None |}.

Definition constJudge (metric : string) (v : float) : Judge :=
  fun _ _ _ => {| score_metrics := [(metric, v)]; score_notes := None;
                  score_artifacts := None |}.

Definition keyTermsEval (threshold : float) : EvalSpec unit :=
  {| spec_name := "key_terms_eval";
     spec_target := echoStep;
     spec_dataset := {| dataset_name := "tiny";
                        dataset_cases := [mkCase "a" (VNum 0.5); mkCase "b" (VNum 1)] |};
     spec_judges := [expectedJudge "key_terms"];
     spec_thresholds := [("key_terms", threshold)] |}.

Definition collidingEval : EvalSpec unit :=
  {| spec_name := "colliding";
     spec_target := echoStep;
     spec_dataset := {| dataset_name := "one";
                        dataset_cases := [mkCase "a" VUndefined] |};
     spec_judges := [constJudge "score" 0.25; constJudge "score" 1];
     spec_thresholds := [] |}.

(** ** C6, C7, C10: thresholds, aggregates, colliding metric names *)

Section EvalTheorems.
Context {U : Type}.

Lemma runEval_inv (spec : EvalSpec U) rt s r s' fx :
  runEval spec rt s = (Ok r, s', fx) ->
  run_passed r = forallb (threshold_met (run_aggregates r)) (spec_thresholds spec).
Proof.
  unfold runEval, bind.
  destruct (eval_cases spec rt _ _ s) as [[[acc|e] s1] fx1]; [|done].
  simpl. by intros [= <- _ _].
Qed.

(** C6. The run passes exactly when every metric of the threshold map has
    an aggregate and that aggregate is at least the threshold; a metric of
    the threshold map without an aggregate fails the run. *)
Theorem runEval_passed_iff_thresholds (spec : EvalSpec U) rt s r s' fx :
  runEval spec rt s = (Ok r, s', fx) ->
  (run_passed r = true <->
   forall metric threshold, In (metric, threshold) (spec_thresholds spec) ->
     exists achieved, run_aggregates r !! metric = Some achieved /\
                      PrimFloat.leb threshold achieved = true) /\
  (forall metric threshold, In (metric, threshold) (spec_thresholds spec) ->
     run_aggregates r !! metric = None -> run_passed r = false).
Proof.
  intros H. apply runEval_inv in H. rewrite H. split.
  - rewrite forallb_forall. split.
    + intros Hall metric threshold Hin. specialize (Hall _ Hin).
      unfold threshold_met in Hall. simpl in Hall.
      destruct (run_aggregates r !! metric) as [achieved|];
        [|by destruct (inherited metric)].
      by exists achieved.
    + intros Hall [metric threshold] Hin.
      destruct (Hall _ _ Hin) as (achieved & Hlk & Hle).
      unfold threshold_met. simpl. by rewrite Hlk.
  - intros metric threshold Hin Hnone.
    apply not_true_is_false. rewrite forallb_forall. intros Hall.
    specialize (Hall _ Hin). unfold threshold_met in Hall. simpl in Hall.
    rewrite Hnone in Hall. by destruct (inherited metric).
Qed.

(** C7. Whenever the evaluation returns a result, the aggregate it reports
    for a metric name is the mean, sum over count, of the values recorded for
    that name over the cases; a case without the metric adds nothing to
    either, and a name without a recorded value has no aggregate.  For a
    metric with one value [f co] in every case the aggregate is the mean of
    these values.  The evaluation does return a result when the target runs
    on every case and no judge reports a metric named like a property of
    [Object.prototype]. *)
Theorem runEval_aggregate_is_mean (spec : EvalSpec U) rt s outs s' fx :
  run_targets (spec_target spec) rt (dataset_cases (spec_dataset spec)) s
    = (Ok outs, s', fx) ->
  let cos := zip (dataset_cases (spec_dataset spec)) outs in
  (plain_names (spec_judges spec) cos -> exists r, runEval spec rt s = (Ok r, s', fx)) /\
  (forall r s'' fx'',
     runEval spec rt s = (Ok r, s'', fx'') ->
     (forall k, run_aggregates r !! k =
                mean_of_recorded (recorded k (spec_judges spec) cos)) /\
     (forall k (f : Case * value -> float),
        (forall co, In co cos ->
           case_values k (spec_judges spec) (fst co) (snd co) = [f co]) ->
        cos <> [] ->
        run_aggregates r !! k =
        Some (PrimFloat.div (fold_left PrimFloat.add (map f cos) 0%float)
                (Number_of_nat (length cos))))).
Proof.
  intros H cos. split.
  - intros Hplain. eexists. exact (runEval_run_targets spec rt _ _ _ _ H Hplain).
  - intros r s'' fx'' Hr.
    destruct (runEval_Ok spec rt s r s'' fx'' Hr) as (outs' & Hrun & Hr').
    rewrite H in Hrun. injection Hrun as <- _ _. cbv zeta in Hr'. subst r.
    simpl. fold cos. split.
    + intros k. apply aggregates_recorded.
    + intros k f Hone Hne. rewrite aggregates_recorded.
      assert (Hrec : recorded k (spec_judges spec) cos = map f cos).
      { unfold recorded. clear Hne. induction cos as [|co l IH]; [reflexivity|].
        simpl. rewrite (Hone co) by (by left). simpl. f_equal.
        apply IH. intros co' Hin. apply Hone. by right. }
      rewrite Hrec. unfold mean_of_recorded.
      destruct (map f cos) as [|v vs] eqn:E.
      * by destruct cos.
      * unfold mean. by rewrite <- E, length_map.
Qed.

(** C10. When two judges report the same metric name in one case, [j1]
    before [j2] and no judge after [j2], and the evaluation returns a result:
    the metric of the case in the result is the value of [j2], and the
    aggregate is the mean of a list that holds both values for that case.
    The evaluation does return a result when the target runs on every case
    and no judge reports a metric named like a property of
    [Object.prototype]. *)
Theorem runEval_colliding_metric (spec : EvalSpec U) rt s outs s' fx
    i c out k pre j1 mid j2 post v1 v2 :
  run_targets (spec_target spec) rt (dataset_cases (spec_dataset spec)) s
    = (Ok outs, s', fx) ->
  let cos := zip (dataset_cases (spec_dataset spec)) outs in
  cos !! i = Some (c, out) ->
  spec_judges spec = pre ++ j1 :: mid ++ j2 :: post ->
  values_of k (judged_by c out j1) = [v1] ->
  values_of k (judged_by c out j2) = [v2] ->
  case_values k post c out = [] ->
  (plain_names (spec_judges spec) cos -> exists r, runEval spec rt s = (Ok r, s', fx)) /\
  (forall r s'' fx'',
     runEval spec rt s = (Ok r, s'', fx'') ->
     exists cr,
       run_cases r !! i = Some cr /\
       result_id cr = case_id c /\
       result_metrics cr !! k = Some v2 /\
       run_aggregates r !! k =
       Some (mean (recorded k (spec_judges spec) (take i cos)
                   ++ (case_values k pre c out ++ v1 :: case_values k mid c out ++ [v2])
                   ++ recorded k (spec_judges spec) (drop (S i) cos)))).
Proof.
  intros H cos Hi Hjs Hv1 Hv2 Hpost. split.
  { intros Hplain. eexists. exact (runEval_run_targets spec rt _ _ _ _ H Hplain). }
  intros r s'' fx'' Hr.
  destruct (runEval_Ok spec rt s r s'' fx'' Hr) as (outs' & Hrun & Hr').
  rewrite H in Hrun. injection Hrun as <- _ _. cbv zeta in Hr'. subst r.
  assert (Hcase : case_values k (spec_judges spec) c out =
                  case_values k pre c out ++ v1 :: case_values k mid c out ++ [v2]).
  { rewrite Hjs. unfold case_values in *.
    rewrite flat_map_app. simpl. rewrite Hv1. simpl.
    rewrite flat_map_app. simpl. by rewrite Hv2, Hpost. }
  destruct (eval_fold_cases spec cos ([], ∅) i (c, out) Hi) as (cr & Hcr & Hid & Hm).
  exists cr. simpl. fold cos.
  split; [exact Hcr|]. split; [exact Hid|]. split.
  - rewrite Hm. simpl. rewrite Hcase.
    by rewrite app_comm_cons, app_assoc, last_snoc.
  - rewrite aggregates_recorded.
    rewrite <- (take_drop_middle cos i (c, out) Hi) at 1.
    unfold recorded at 1. rewrite flat_map_app. simpl. rewrite Hcase.
    fold (recorded k (spec_judges spec) (take i cos)).
    fold (recorded k (spec_judges spec) (drop (S i) cos)).
    unfold mean_of_recorded.
    destruct (recorded k (spec_judges spec) (take i cos)); simpl.
    + by destruct (case_values k pre c out).
    + reflexivity.
Qed.

End EvalTheorems.

Lemma runEval_passed_iff_thresholds_witness :
  exists r s' fx,
    runEval (keyTermsEval 0.75) (createRuntime.run plainOptions) state0 = (Ok r, s', fx) /\
    ((run_passed r = true <->
      forall metric threshold,
        In (metric, threshold) (spec_thresholds (keyTermsEval 0.75)) ->
        exists achieved, run_aggregates r !! metric = Some achieved /\
                         PrimFloat.leb threshold achieved = true) /\
     (forall metric threshold,
        In (metric, threshold) (spec_thresholds (keyTermsEval 0.75)) ->
        run_aggregates r !! metric = None -> run_passed r = false)).
Proof.
  eexists _, _, _. split.
  - vm_compute. reflexivity.
  - apply (runEval_passed_iff_thresholds (keyTermsEval 0.75)
             (createRuntime.run plainOptions) state0 _ _ _ eq_refl).
Defined.

(** The scenario of the specification: scores 0.5 and 1.0 give the aggregate
    0.75; the run passes with the threshold 0.75 and fails with 0.8. *)
Example key_terms_scenario :
  (forall r s' fx,
     runEval (keyTermsEval 0.75) (createRuntime.run plainOptions) state0 = (Ok r, s', fx) ->
     run_aggregates r !! "key_terms" = Some 0.75%float /\ run_passed r = true) /\
  (forall r s' fx,
     runEval (keyTermsEval 0x1.999999999999ap-1) (createRuntime.run plainOptions) state0
       = (Ok r, s', fx) ->
     run_aggregates r !! "key_terms" = Some 0.75%float /\ run_passed r = false).
Proof.
  split; intros r s' fx H; vm_compute in H; injection H as <- _ _; by vm_compute.
Qed.

Lemma runEval_aggregate_is_mean_witness :
  exists r s' fx,
    runEval (keyTermsEval 0.75) (createRuntime.run plainOptions) state0 = (Ok r, s', fx) /\
    run_aggregates r !! "key_terms" = Some 0.75%float.
Proof.
  destruct (runEval_aggregate_is_mean (keyTermsEval 0.75)
              (createRuntime.run plainOptions) state0 _ _ _ eq_refl) as [Hret Hmean].
  destruct Hret as [r Hr].
  { repeat (apply List.Forall_cons; [by apply (bool_decide_unpack _)|]).
    apply List.Forall_nil. }
  exists r. eexists _, _. split; [exact Hr|].
  destruct (Hmean r _ _ Hr) as [Hagg _]. rewrite Hagg. reflexivity.
Defined.

Lemma runEval_colliding_metric_witness :
  exists r cr s' fx,
    runEval collidingEval (createRuntime.run plainOptions) state0 = (Ok r, s', fx) /\
    run_cases r !! 0 = Some cr /\
    result_metrics cr !! "score" = Some 1%float /\
    run_aggregates r !! "score" = Some (mean [0.25; 1]%float).
Proof.
  destruct (runEval_colliding_metric collidingEval (createRuntime.run plainOptions)
              state0 _ _ _ 0 (mkCase "a" VUndefined) (VStr "a") "score"
              [] (constJudge "score" 0.25) [] (constJudge "score" 1) []
              0.25%float 1%float eq_refl eq_refl eq_refl eq_refl eq_refl eq_refl)
    as [Hret Hres].
  destruct Hret as [r Hr].
  { repeat (apply List.Forall_cons; [by apply (bool_decide_unpack _)|]).
    apply List.Forall_nil. }
  destruct (Hres r _ _ Hr) as (cr & Hcr & _ & Hm & Hagg).
  exists r, cr. eexists _, _. split; [exact Hr|]. split; [exact Hcr|].
  split; [exact Hm|]. exact Hagg.
Defined.

(** ** Vocabulary of the trace properties *)

Definition is_span_start_of (id : SpanId) (fx : Effect) : bool :=
  match fx with
  | SinkWrite (span_start _ _ spanId _ _ _) => Nat.eqb spanId id
  | _ => false
  end.

Definition is_span_end_of (id : SpanId) (fx : Effect) : bool :=
  match fx with
  | SinkWrite (span_end _ _ spanId _ _ _ _) => Nat.eqb spanId id
  | _ => false
  end.

Definition is_validation_error_of (direction : Direction) (fx : Effect) : bool :=
  match fx with
  | SinkWrite (validation_error _ _ _ input_dir _) =>
      match direction with input_dir => true | output_dir => false end
  | SinkWrite (validation_error _ _ _ output_dir _) =>
      match direction with input_dir => false | output_dir => true end
  | _ => false
  end.

Definition is_llm_call (fx : Effect) : bool :=
  match fx with
  | SinkWrite (llm_call _ _ _ _ _ _ _ _ _ _) => true
  | _ => false
  end.


Definition count_effects (p : Effect -> bool) (fx : list Effect) : nat :=
  length (List.filter p fx).

(** The state after [n] calls of [randomUUID()]. *)
Definition after_uuids {U} (n : nat) (s : State U) : State U :=
  {| nextUUID := n + nextUUID s; clock := clock s; cacheStore := cacheStore s;
     world := world s |}.

(** What the orchestrator calls inside its [try] before it writes the root
    [span_end]: the validation of the input, the target, the validation of the
    output. *)
Definition call_chain {U} (target : Step U) (ctx : Ctx U) (i : value) : M U value :=
  validatedInput <- validateWithZod (input target) i input_dir
                      (RuntimeCtx.trace ctx) (RuntimeCtx.spanId ctx) ;;
  out <- run target ctx validatedInput ;;
  validateWithZod (output target) out output_dir
    (RuntimeCtx.trace ctx) (RuntimeCtx.spanId ctx).

(** The context that [createRuntime(options).run] builds in the state [s]. *)
Definition root_ctx {U} (options : RuntimeOptions U) (s : State U) : Ctx U :=
  {| RuntimeCtx.runId := nextUUID s; RuntimeCtx.spanId := S (nextUUID s);
     RuntimeCtx.trace := {| Trace.runId := nextUUID s; Trace.spanId := S (nextUUID s);
                            Trace.parentSpanId := None |};
     RuntimeCtx.llm := options_llm options;
     RuntimeCtx.cache := options_cache options;
     RuntimeCtx.policies := options_policies options |}.

(** The record an orchestrator run hands to its caller, if any. *)
Definition produced_record {U} (r : Outcome (value * RunRecord) * State U * list Effect)
    : option RunRecord :=
  match fst (fst r) with
  | Ok (_, record) => Some record
  | Throw _ => None
  end.

(** ** Data of the examples: steps and contexts *)

Definition strictStep : Step unit :=
  {| name := "strict"; input := nonEmptyString; output := anySchema;
     run := fun _ i => ret i |}.

Definition someCtx : Ctx unit :=
  {| RuntimeCtx.runId := 100; RuntimeCtx.spanId := 101;
     RuntimeCtx.trace := {| Trace.runId := 100; Trace.spanId := 101;
                            Trace.parentSpanId := None |};
     RuntimeCtx.llm := staticLLM "ok"; RuntimeCtx.cache := None;
     RuntimeCtx.policies := None |}.

Definition failingStep : Step unit :=
  defineStep {| name := "inner"; input := anySchema; output := anySchema;
                run := fun _ _ => throw (Error "boom") |}.

(** A workflow whose nested step throws. *)
Definition failingWorkflow : Workflow unit :=
  defineWorkflow {| name := "outer"; input := anySchema; output := anySchema;
                    run := fun ctx i => run failingStep ctx i |}.

(** ** C1, C5: the step and workflow wrappers *)

Section WrapperTheorems.
Context {U : Type}.

(** The child context of [ctx] made in the state [s]. *)
Definition child_ctx (ctx : Ctx U) (s : State U) : Ctx U :=
  {| RuntimeCtx.runId := RuntimeCtx.runId ctx;
     RuntimeCtx.spanId := nextUUID s;
     RuntimeCtx.trace := {| Trace.runId := Trace.runId (RuntimeCtx.trace ctx);
                            Trace.spanId := nextUUID s;
                            Trace.parentSpanId := Some (Trace.spanId (RuntimeCtx.trace ctx)) |};
     RuntimeCtx.llm := RuntimeCtx.llm ctx;
     RuntimeCtx.cache := RuntimeCtx.cache ctx;
     RuntimeCtx.policies := RuntimeCtx.policies ctx |}.

Definition child_span_start (ctx : Ctx U) (stepName : string) (s : State U) : Effect :=
  SinkWrite (span_start (clock s) (Trace.runId (RuntimeCtx.trace ctx)) (nextUUID s)
               (Some (Trace.spanId (RuntimeCtx.trace ctx))) stepName None).

Definition child_span_end (ctx : Ctx U) (stepName : string) (s s' : State U)
    (error : option string) : Effect :=
  SinkWrite (span_end (clock s') (Trace.runId (RuntimeCtx.trace ctx)) (nextUUID s)
               (Some (Trace.spanId (RuntimeCtx.trace ctx))) stepName
               (PrimFloat.sub (clock s') (clock s)) error).

Lemma defineWorkflow_defineStep (step : Step U) : defineWorkflow step = defineStep step.
Proof. reflexivity. Qed.

Lemma defineStep_input_failure (step : Step U) ctx i s issues :
  safeParse (input step) i = parse_failure issues ->
  run (defineStep step) ctx i s =
  (Throw (ValidationError issues "input validation failed"),
   after_uuids 1 s,
   [child_span_start ctx (name step) s;
    SinkWrite (validation_error (clock s) (Trace.runId (RuntimeCtx.trace ctx))
                 (nextUUID s) input_dir issues)]).
Proof.
  intros H. unfold defineStep, bind, validateWithZod. simpl. rewrite H. reflexivity.
Qed.

(** With a valid input the wrapper runs the body in the child context and
    closes the span on each of the three ways out. *)
Lemma defineStep_valid_input (step : Step U) ctx i s data :
  safeParse (input step) i = parse_success data ->
  run (defineStep step) ctx i s =
  match run step (child_ctx ctx s) data (after_uuids 1 s) with
  | (Ok result, s1, fxb) =>
      match safeParse (output step) result with
      | parse_success out =>
          (Ok out, s1,
           child_span_start ctx (name step) s
             :: fxb ++ [child_span_end ctx (name step) s s1 None])
      | parse_failure issues =>
          (Throw (ValidationError issues "output validation failed"), s1,
           child_span_start ctx (name step) s
             :: fxb ++ [SinkWrite (validation_error (clock s1)
                                     (Trace.runId (RuntimeCtx.trace ctx))
                                     (nextUUID s) output_dir issues);
                        child_span_end ctx (name step) s s1
                          (Some "output validation failed")])
      end
  | (Throw err, s1, fxb) =>
      (Throw err, s1,
       child_span_start ctx (name step) s
         :: fxb ++ [child_span_end ctx (name step) s s1 (Some (errorText err))])
  end.
Proof.
  intros H. unfold defineStep, bind, try_catch, validateWithZod. simpl. rewrite H. simpl.
  change {| nextUUID := S (nextUUID s); clock := clock s; cacheStore := cacheStore s;
            world := world s |} with (after_uuids 1 s).
  fold (child_ctx ctx s).
  destruct (run step (child_ctx ctx s) data (after_uuids 1 s)) as [[[result|err] s1] fxb].
  - destruct (safeParse (output step) result) as [out|issues]; simpl.
    + reflexivity.
    + by rewrite <- app_assoc.
  - reflexivity.
Qed.

(** C5. An input that the input schema rejects: the wrapper of a step and
    of a workflow throws the validation error with the issues of the schema,
    after one [validation_error] event of direction input; the outcome does
    not depend on the body, which is not run (the world is as before). *)
Theorem invalid_input_skips_body (stepName : string) (inS outS : ZodType)
    (body : Ctx U -> value -> M U value) ctx i s issues :
  safeParse inS i = parse_failure issues ->
  let step := {| name := stepName; input := inS; output := outS; run := body |} in
  let failed :=
    (Throw (ValidationError issues "input validation failed"),
     after_uuids 1 s,
     [child_span_start ctx stepName s;
      SinkWrite (validation_error (clock s) (Trace.runId (RuntimeCtx.trace ctx))
                   (nextUUID s) input_dir issues)]) in
  run (defineStep step) ctx i s = failed /\
  run (defineWorkflow step) ctx i s = failed /\
  count_effects (is_validation_error_of input_dir) (snd failed) = 1 /\
  world (snd (fst failed)) = world s.
Proof.
  intros H step failed.
  split; [exact (defineStep_input_failure step ctx i s issues H)|].
  split; [exact (defineStep_input_failure step ctx i s issues H)|].
  split; reflexivity.
Qed.

End WrapperTheorems.

Lemma invalid_input_skips_body_witness :
  run (defineStep strictStep) someCtx (VStr "") state0 =
  (Throw (ValidationError (VArr [VStr "too_small"]) "input validation failed"),
   after_uuids 1 state0,
   [child_span_start someCtx "strict" state0;
    SinkWrite (validation_error 0%float 100 0 input_dir (VArr [VStr "too_small"]))]).
Proof.
  exact (proj1 (invalid_input_skips_body "strict" nonEmptyString anySchema
                  (fun _ i => ret i) someCtx (VStr "") state0
                  (VArr [VStr "too_small"]) eq_refl)).
Defined.

(** C1 (the input-validation path). A step and a workflow whose input schema
    wants a non-empty string, called with the empty string: the span of the
    call is started, the validation error is thrown, and no [span_end] is
    written for the span. *)
Theorem input_failure_leaves_span_open :
  let r := run (defineStep strictStep) someCtx (VStr "") state0 in
  let w := run (defineWorkflow strictStep) someCtx (VStr "") state0 in
  fst (fst r) = Throw (ValidationError (VArr [VStr "too_small"]) "input validation failed") /\
  count_effects (is_span_start_of 0) (snd r) = 1 /\
  count_effects (is_span_end_of 0) (snd r) = 0 /\
  w = r.
Proof. repeat split. Qed.

(** ** The orchestrator on a failing call chain *)

Section OrchestratorTheorems.
Context {U : Type}.

Definition root_span_start (target : Step U) (s : State U) : Effect :=
  SinkWrite (span_start (clock s) (nextUUID s) (S (nextUUID s)) None (name target) None).

Definition root_span_end (target : Step U) (s s' : State U) (error : option string)
    : Effect :=
  SinkWrite (span_end (clock s') (nextUUID s) (S (nextUUID s)) None (name target)
               (PrimFloat.sub (clock s') (clock s)) error).

Lemma count_effects_app p fx1 fx2 :
  count_effects p (fx1 ++ fx2) = count_effects p fx1 + count_effects p fx2.
Proof. unfold count_effects. by rewrite List.filter_app, length_app. Qed.

Lemma count_effects_none p fx :
  (forall e, In e fx -> p e = false) -> count_effects p fx = 0.
Proof.
  unfold count_effects. induction fx as [|e fx IH]; intros H; [reflexivity|].
  simpl. rewrite (H e) by (by left). apply IH. intros e' He'. apply H. by right.
Qed.

(** A run whose call chain returns hands over the output and a record with
    the status success, after the root [span_end] and the close of the sink. *)
Lemma run_success_record (options : RuntimeOptions U) (target : Step U) i s out s1 inner :
  call_chain target (root_ctx options s) i (after_uuids 2 s) = (Ok out, s1, inner) ->
  createRuntime.run options target i s =
  (Ok (out, {| record_runId := nextUUID s; target := name target; status := success;
               startedAt := clock s; endedAt := clock s1;
               durationMs := PrimFloat.sub (clock s1) (clock s) |}),
   s1,
   root_span_start target s :: inner ++ [root_span_end target s s1 None; SinkClose]).
Proof.
  intros H. unfold createRuntime.run, call_chain in *.
  unfold bind, try_catch in *. simpl in *.
  change {| nextUUID := S (S (nextUUID s)); clock := clock s;
            cacheStore := cacheStore s; world := world s |}
    with (after_uuids 2 s).
  fold (root_ctx options s).
  destruct (validateWithZod (input target) i input_dir _ _ (after_uuids 2 s))
    as [[[vi|e1] sa] fa]; [|done].
  destruct (run target (root_ctx options s) vi sa) as [[[o|e2] sb] fb]; [|done].
  destruct (validateWithZod (output target) o output_dir _ _ sb)
    as [[[vo|e3] sc] fc]; [|done].
  injection H as -> -> <-. simpl. by rewrite <- !app_assoc.
Qed.

(** X23. When the call chain (validation of the input, the target,
    validation of the output) throws [err], the run throws the same [err] to
    its caller, so it hands over no record; after the effects of the call
    chain it writes one root [span_end] with the message of [err] and then
    closes the sink.  That [span_end] is the only one of the root span when
    the call chain wrote none for it. *)
Theorem run_failure_closes_root_span (options : RuntimeOptions U) (target : Step U)
    i s err s1 inner :
  call_chain target (root_ctx options s) i (after_uuids 2 s) = (Throw err, s1, inner) ->
  let r := createRuntime.run options target i s in
  r = (Throw err, s1,
       root_span_start target s
         :: inner ++ [root_span_end target s s1 (Some (errorText err)); SinkClose]) /\
  produced_record r = None /\
  ((forall e, In e inner -> is_span_end_of (S (nextUUID s)) e = false) ->
   count_effects (is_span_end_of (S (nextUUID s))) (snd r) = 1).
Proof.
  intros H r.
  assert (Hr : r = (Throw err, s1,
                    root_span_start target s
                      :: inner ++ [root_span_end target s s1 (Some (errorText err));
                                   SinkClose])).
  { subst r. unfold createRuntime.run, call_chain in *.
    unfold bind, try_catch in *. simpl in *.
    change {| nextUUID := S (S (nextUUID s)); clock := clock s;
              cacheStore := cacheStore s; world := world s |}
      with (after_uuids 2 s).
    fold (root_ctx options s).
    destruct (validateWithZod (input target) i input_dir _ _ (after_uuids 2 s))
      as [[[vi|e1] sa] fa].
    - destruct (run target (root_ctx options s) vi sa) as [[[out|e2] sb] fb].
      + destruct (validateWithZod (output target) out output_dir _ _ sb)
          as [[[vo|e3] sc] fc]; [done|].
        injection H as -> -> <-. simpl. by rewrite <- !app_assoc.
      + injection H as -> -> <-. simpl. by rewrite <- !app_assoc.
    - injection H as -> -> <-. reflexivity. }
  split; [exact Hr|]. rewrite Hr. split; [reflexivity|].
  intros Hinner. simpl snd.
  change (root_span_start target s :: inner ++ _)
    with ([root_span_start target s] ++ inner ++
          [root_span_end target s s1 (Some (errorText err)); SinkClose]).
  rewrite !count_effects_app, (count_effects_none _ inner Hinner).
  unfold count_effects. simpl. by rewrite Nat.eqb_refl.
Qed.

End OrchestratorTheorems.

(** The scenario of the specification: a workflow whose nested step throws. *)
Lemma run_failure_closes_root_span_witness :
  let r := createRuntime.run plainOptions failingWorkflow (VStr "x") state0 in
  fst (fst r) = Throw (Error "boom") /\
  produced_record r = None /\
  count_effects (is_span_end_of 1) (snd r) = 1 /\
  last (snd r) = Some SinkClose.
Proof.
  destruct (run_failure_closes_root_span plainOptions failingWorkflow (VStr "x") state0
              (Error "boom") _ _ eq_refl) as (Hr & Hrec & Hcount).
  split; [by rewrite Hr|]. split; [exact Hrec|]. split.
  - apply Hcount. vm_compute. intros e He.
    repeat (destruct He as [<-|He]; [reflexivity|]). destruct He.
  - by rewrite Hr.
Defined.

(** C2. The run of a workflow whose nested step throws [Error "boom"]
    throws the original error to the caller, writes exactly one root
    [span_end], which carries the message of the error, and closes the sink
    last; but it produces no [RunRecord], so none with the status failure.
    The catch block assigns failure to the local [status], which nothing
    reads afterwards: the record is built in the try block only, with the
    status success. *)
Theorem failing_run_produces_no_record :
  let r := createRuntime.run plainOptions failingWorkflow (VStr "x") state0 in
  fst (fst r) = Throw (Error "boom") /\
  produced_record r = None /\
  (~ exists record, produced_record r = Some record /\ status record = failure) /\
  List.filter (is_span_end_of 1) (snd r) =
    [SinkWrite (span_end (clock state0) 0 1 None (name failingWorkflow)
                  (PrimFloat.sub (clock state0) (clock state0)) (Some "boom"))] /\
  last (snd r) = Some SinkClose.
Proof.
  split; [reflexivity|]. split; [reflexivity|]. split.
  - intros (record & H & _). vm_compute in H. discriminate H.
  - split; reflexivity.
Qed.

(** ** Data of the examples: a host, clients and requests *)

Definition quote (s : string) : string :=
  String (ascii_of_nat 34) (s +:+ String (ascii_of_nat 34) "").

(** A small host: strings are quoted, numbers are all printed alike, only
    the JSON texts [null], [true] and [false] parse, and keys are compared by
    their characters. *)
#[export] Instance exampleHost : Host :=
  {| JSON_stringify_number := fun _ => "0";
     JSON_stringify_string := quote;
     JSON_parse := fun s =>
       if String.eqb s "null" then Some VNull
       else if String.eqb s "true" then Some (VBool true)
       else if String.eqb s "false" then Some (VBool false)
       else None;
     localeCompare := String_as_OT.compare |}.

Definition failingLLM : LLMClientOptions unit :=
  {| responder := fun _ w => (Throw (Error "down"), w) |}.

Definition cachedCtx : Ctx unit :=
  {| RuntimeCtx.runId := 100; RuntimeCtx.spanId := 101;
     RuntimeCtx.trace := {| Trace.runId := 100; Trace.spanId := 101;
                            Trace.parentSpanId := None |};
     RuntimeCtx.llm := staticLLM "ok"; RuntimeCtx.cache := Some memoryCache;
     RuntimeCtx.policies := None |}.

Definition userMessage (content : string) : value :=
  VObj [("role", VStr "user"); ("content", VStr content)].

Definition plainArgs : LLMGenerateArgs :=
  {| model := "m"; messages := [userMessage "hi"]; schema := None;
     temperature := None; maxTokens := None; tools := None |}.

(** A schema that accepts booleans only. *)
Definition booleanSchema : ZodType :=
  {| safeParse := fun v =>
       match v with
       | VBool _ => parse_success v
       | _ => parse_failure (VArr [VStr "invalid_type"])
       end;
     toString := Some "[object Object]" |}.

Definition booleanArgs : LLMGenerateArgs :=
  {| model := "m"; messages := [userMessage "hi"]; schema := Some booleanSchema;
     temperature := None; maxTokens := None; tools := None |}.

(** ** C3, C8, C9: the cache-aware generation call *)

Section GenerateTheorems.
Context {host : Host} {U : Type}.

(** The candidate that [parseWithSchema] validates. *)
Definition candidate_of (raw : string) : value :=
  match JSON_parse raw with
  | Some v => v
  | None => VStr raw
  end.

(** The state after the backend changed the world to [w]. *)
Definition with_world (s : State U) (w : U) : State U :=
  {| nextUUID := nextUUID s; clock := clock s; cacheStore := cacheStore s; world := w |}.

Definition with_cached (s : State U) (key : string) (v : value) : State U :=
  {| nextUUID := nextUUID s; clock := clock s;
     cacheStore := <[key := v]> (cacheStore s); world := world s |}.

Definition llm_call_complete (ctx : Ctx U) (s : State U) : Effect :=
  SinkWrite (event (clock s) (Trace.runId (RuntimeCtx.trace ctx))
               (Trace.spanId (RuntimeCtx.trace ctx)) "llm_call_complete"
               (Some (VObj [("durationMs", VNum (PrimFloat.sub (clock s) (clock s)))]))).

(** The [llm_call_complete] event of a call that started in the state
    [started] and ends in [s]. *)
Definition llm_call_completed (ctx : Ctx U) (started s : State U) : Effect :=
  SinkWrite (event (clock s) (Trace.runId (RuntimeCtx.trace ctx))
               (Trace.spanId (RuntimeCtx.trace ctx)) "llm_call_complete"
               (Some (VObj [("durationMs",
                             VNum (PrimFloat.sub (clock s) (clock started)))]))).

Definition llm_call_failed (ctx : Ctx U) (args : LLMGenerateArgs) (s : State U)
    (err : Thrown) : Effect :=
  SinkWrite (llm_call (clock s) (RuntimeCtx.runId ctx) (RuntimeCtx.spanId ctx) (model args)
               None None VUndefined (Some (errorText err)) None None).

Definition llm_call_done (ctx : Ctx U) (args : LLMGenerateArgs) (s : State U)
    (response : LLMResponse) (parsed : value) : Effect :=
  SinkWrite (llm_call (clock s) (RuntimeCtx.runId ctx) (RuntimeCtx.spanId ctx) (model args)
               (Some {| params_temperature := temperature args;
                        params_maxTokens := maxTokens args |})
               (Some (response_raw response)) parsed None
               (response_tokens response) (response_costUsd response)).

Lemma truthy_result r : truthy (LLMGenerateResult_value r) = true.
Proof. reflexivity. Qed.

(** A truthy value from the cache is the whole call. *)
Lemma generate_hit options (ctx : Ctx U) args s cached s0 fx0 :
  maybeGet (RuntimeCtx.cache ctx) (cacheKey args) s = (Ok cached, s0, fx0) ->
  truthy cached = true ->
  generate options ctx args s = (Ok cached, s0, fx0).
Proof.
  intros Hget Ht. unfold generate, bind. rewrite Hget, Ht. simpl.
  by rewrite app_nil_r.
Qed.

(** After a falsy value from the cache the backend is asked. *)
Lemma generate_miss_responds options (ctx : Ctx U) args s cached s0 fx0 :
  maybeGet (RuntimeCtx.cache ctx) (cacheKey args) s = (Ok cached, s0, fx0) ->
  truthy cached = false ->
  exists r s' rest, generate options ctx args s = (r, s', fx0 ++ Respond args :: rest).
Proof.
  intros Hget Ht. unfold generate, bind. rewrite Hget, Ht. simpl.
  unfold try_finally, try_catch, bind, call_responder. simpl.
  destruct (responder options args (world s0)) as [[response|err] w]; simpl.
  - destruct (match schema args with
              | Some sch => parseWithSchema sch (response_raw response)
              | None => ret VUndefined
              end _) as [[[p|e] sp] fp]; simpl.
    + destruct (maybeSet _ _ _ _) as [[[[]|e] sc] fc]; simpl; eauto.
    + eauto.
  - eauto.
Qed.

(** A backend failure is traced and thrown on; nothing is stored. *)
Lemma generate_miss_backend_failure options (ctx : Ctx U) args s cached s0 fx0 err w :
  maybeGet (RuntimeCtx.cache ctx) (cacheKey args) s = (Ok cached, s0, fx0) ->
  truthy cached = false ->
  responder options args (world s0) = (Throw err, w) ->
  generate options ctx args s =
  (Throw err, with_world s0 w,
   fx0 ++ [Respond args; llm_call_failed ctx args s0 err;
           llm_call_complete ctx s0]).
Proof.
  intros Hget Ht Hr. unfold generate, bind. rewrite Hget, Ht. simpl.
  unfold try_finally, try_catch, bind, call_responder. simpl. rewrite Hr. reflexivity.
Qed.

(** The backend answered and the schema rejects the candidate. *)
Lemma generate_miss_schema_failure options (ctx : Ctx U) args s cached s0 fx0
    response w sch issues :
  maybeGet (RuntimeCtx.cache ctx) (cacheKey args) s = (Ok cached, s0, fx0) ->
  truthy cached = false ->
  responder options args (world s0) = (Ok response, w) ->
  schema args = Some sch ->
  safeParse sch (candidate_of (response_raw response)) = parse_failure issues ->
  generate options ctx args s =
  (Throw (ValidationError issues "LLM output failed schema validation"),
   with_world s0 w,
   fx0 ++ [Respond args;
           llm_call_failed ctx args s0
             (ValidationError issues "LLM output failed schema validation");
           llm_call_complete ctx s0]).
Proof.
  intros Hget Ht Hr Hs Hp. unfold generate, bind. rewrite Hget, Ht. simpl.
  unfold try_finally, try_catch, bind, call_responder. simpl. rewrite Hr, Hs. simpl.
  unfold parseWithSchema. fold (candidate_of (response_raw response)). rewrite Hp.
  reflexivity.
Qed.

(** A miss that succeeds, with the in-memory cache: the result is stored
    under the key and then returned. *)
Lemma generate_miss_success options (ctx : Ctx U) args s response w parsed :
  RuntimeCtx.cache ctx = Some memoryCache ->
  truthy (default VUndefined (cacheStore s !! cacheKey args)) = false ->
  responder options args (world s) = (Ok response, w) ->
  match schema args with
  | Some sch => safeParse sch (candidate_of (response_raw response)) = parse_success parsed
  | None => parsed = VUndefined
  end ->
  let result := LLMGenerateResult_value
                  {| raw := response_raw response; parsed := parsed;
                     tokens := response_tokens response;
                     costUsd := response_costUsd response |} in
  generate options ctx args s =
  (Ok result, with_cached (with_world s w) (cacheKey args) result,
   [Respond args; llm_call_done ctx args s response parsed; llm_call_complete ctx s]).
Proof.
  intros Hc Ht Hr Hp result. unfold generate, bind. rewrite Hc. simpl. rewrite Ht. simpl.
  unfold try_finally, try_catch, bind, call_responder. simpl. rewrite Hr. simpl.
  destruct (schema args) as [sch|].
  - unfold parseWithSchema. fold (candidate_of (response_raw response)). rewrite Hp.
    reflexivity.
  - subst parsed. reflexivity.
Qed.







(** C9. What the cache gives for the key decides: after a falsy value
    (as [null], [0], [false] and the empty string are) the backend is asked;
    a truthy value is returned and the backend is not asked. *)
Theorem falsy_cached_value_is_a_miss options (ctx : Ctx U) c args s cached s0 fx0 :
  RuntimeCtx.cache ctx = Some c ->
  get c (cacheKey args) s = (Ok cached, s0, fx0) ->
  (truthy cached = false ->
   exists r s' rest, generate options ctx args s = (r, s', fx0 ++ Respond args :: rest)) /\
  (truthy cached = true -> generate options ctx args s = (Ok cached, s0, fx0)) /\
  truthy VNull = false /\ truthy (VNum 0) = false /\
  truthy (VBool false) = false /\ truthy (VStr "") = false.
Proof.
  intros Hc Hget.
  assert (Hm : maybeGet (RuntimeCtx.cache ctx) (cacheKey args) s = (Ok cached, s0, fx0))
    by (by rewrite Hc).
  split; [exact (generate_miss_responds options ctx args s cached s0 fx0 Hm)|].
  split; [exact (generate_hit options ctx args s cached s0 fx0 Hm)|].
  by repeat split.
Qed.

(** C8. On a miss with a schema, the text of the backend is parsed as JSON,
    the text itself being the candidate when that fails; the candidate is
    validated against the schema.  When the schema rejects it the call throws
    the validation error (and writes the [llm_call] event of a failure); when
    the schema accepts it the [llm_call] event carries the validated data. *)
Theorem schema_failure_is_validation_error options (ctx : Ctx U) args s cached s0 fx0
    response w sch :
  maybeGet (RuntimeCtx.cache ctx) (cacheKey args) s = (Ok cached, s0, fx0) ->
  truthy cached = false ->
  responder options args (world s0) = (Ok response, w) ->
  schema args = Some sch ->
  let candidate :=
    match JSON_parse (response_raw response) with
    | Some v => v
    | None => VStr (response_raw response)
    end in
  (forall s' : State U,
     parseWithSchema sch (response_raw response) s' =
     match safeParse sch candidate with
     | parse_success data => (Ok data, s', [])
     | parse_failure issues =>
         (Throw (ValidationError issues "LLM output failed schema validation"), s', [])
     end) /\
  (forall issues,
     safeParse sch candidate = parse_failure issues ->
     generate options ctx args s =
     (Throw (ValidationError issues "LLM output failed schema validation"),
      with_world s0 w,
      fx0 ++ [Respond args;
              llm_call_failed ctx args s0
                (ValidationError issues "LLM output failed schema validation");
              llm_call_complete ctx s0])) /\
  (forall data,
     safeParse sch candidate = parse_success data ->
     exists r s' rest,
       generate options ctx args s =
       (r, s', fx0 ++ Respond args :: llm_call_done ctx args s0 response data :: rest)).
Proof.
  intros Hget Ht Hr Hs candidate. split; [|split].
  - intros s'. unfold parseWithSchema. fold candidate.
    by destruct (safeParse sch candidate).
  - intros issues Hp.
    by apply (generate_miss_schema_failure options ctx args s cached s0 fx0 response w sch).
  - intros data Hp. unfold generate, bind. rewrite Hget, Ht. simpl.
    unfold try_finally, try_catch, bind, call_responder. simpl. rewrite Hr, Hs. simpl.
    unfold parseWithSchema. fold candidate. rewrite Hp. simpl.
    destruct (maybeSet _ _ _ _) as [[[[]|e] sc] fc]; simpl; eauto.
Qed.

End GenerateTheorems.



(** A cache that holds the number 0 under the key of the request. *)
Definition zeroCachedState : State unit :=
  {| nextUUID := 0; clock := 0%float;
     cacheStore := {[ cacheKey plainArgs := VNum 0 ]}; world := tt |}.

Lemma falsy_cached_value_is_a_miss_witness :
  exists r s' rest,
    generate (staticLLM "ok") cachedCtx plainArgs zeroCachedState
    = (r, s', [] ++ Respond plainArgs :: rest).
Proof.
  exact (proj1 (falsy_cached_value_is_a_miss (staticLLM "ok") cachedCtx memoryCache
                  plainArgs zeroCachedState (VNum 0) zeroCachedState [] eq_refl eq_refl)
           eq_refl).
Defined.

Lemma schema_failure_is_validation_error_witness :
  generate (staticLLM "ok") cachedCtx booleanArgs state0 =
  (Throw (ValidationError (VArr [VStr "invalid_type"]) "LLM output failed schema validation"),
   with_world state0 tt,
   [] ++ [Respond booleanArgs;
          llm_call_failed cachedCtx booleanArgs state0
            (ValidationError (VArr [VStr "invalid_type"])
               "LLM output failed schema validation");
          llm_call_complete cachedCtx state0]).
Proof.
  exact (proj1 (proj2 (schema_failure_is_validation_error (staticLLM "ok") cachedCtx
                         booleanArgs state0 VUndefined state0 []
                         {| response_raw := "ok"; response_tokens := None;
                            response_costUsd := None |} tt booleanSchema
                         eq_refl eq_refl eq_refl eq_refl))
           (VArr [VStr "invalid_type"]) eq_refl).
Defined.

(** ** C4: the cache key and the order of object keys *)

(** [v2] is [v1] with the keys of its objects in another order, at any depth.
    The keys of an object are distinct. *)
Inductive reordered : value -> value -> Prop :=
  | reordered_undefined : reordered VUndefined VUndefined
  | reordered_null : reordered VNull VNull
  | reordered_bool b : reordered (VBool b) (VBool b)
  | reordered_num n : reordered (VNum n) (VNum n)
  | reordered_str s : reordered (VStr s) (VStr s)
  | reordered_array items1 items2 :
      Forall2 reordered items1 items2 ->
      reordered (VArr items1) (VArr items2)
  | reordered_object entries1 shuffled entries2 :
      NoDup (map fst entries1) ->
      Permutation entries1 shuffled ->
      Forall2 (fun a b => fst a = fst b /\ reordered (snd a) (snd b)) shuffled entries2 ->
      reordered (VObj entries1) (VObj entries2).

(** Two requests with the same fields, up to the order of the keys of the
    objects in them and up to the default of the temperature. *)
Definition same_request (a1 a2 : LLMGenerateArgs) : Prop :=
  model a1 = model a2 /\
  Forall2 reordered (messages a1) (messages a2) /\
  (sch ← schema a1; toString sch) = (sch ← schema a2; toString sch) /\
  default 0%float (temperature a1) = default 0%float (temperature a2) /\
  maxTokens a1 = maxTokens a2 /\
  Forall2 reordered (default [] (tools a1)) (default [] (tools a2)).

(** What holds of the comparison of keys on every host: it is the comparison
    of a total preorder.  Keys that differ may compare equal, as they do
    under the collation of [String.prototype.localeCompare]. *)
Record KeyPreorder (compare : string -> string -> comparison) : Prop := {
  compare_antisym : forall a b, compare b a = CompOpp (compare a b);
  compare_below : forall a b c, compare a b = Lt -> compare b c <> Gt -> compare a c = Lt;
}.

Section KeyVocabulary.
Context {host : Host}.

(** No two of the keys compare equal. *)
Inductive apart : list string -> Prop :=
  | apart_nil : apart []
  | apart_cons k keys :
      Forall (fun k' => localeCompare k k' <> Eq) keys -> apart keys -> apart (k :: keys).

(** In every object of the value, at any depth, no two keys compare equal. *)
Inductive told_apart : value -> Prop :=
  | told_apart_undefined : told_apart VUndefined
  | told_apart_null : told_apart VNull
  | told_apart_bool b : told_apart (VBool b)
  | told_apart_num n : told_apart (VNum n)
  | told_apart_str s : told_apart (VStr s)
  | told_apart_array items : Forall told_apart items -> told_apart (VArr items)
  | told_apart_object entries :
      apart (map fst entries) ->
      Forall (fun kv => told_apart (snd kv)) entries ->
      told_apart (VObj entries).

(** The same of the objects of a request, which are in its messages and its
    tools. *)
Definition request_told_apart (a : LLMGenerateArgs) : Prop :=
  Forall told_apart (messages a) /\ Forall told_apart (default [] (tools a)).

End KeyVocabulary.

Section value_induction.
Variable P : value -> Prop.
Hypothesis H_undefined : P VUndefined.
Hypothesis H_null : P VNull.
Hypothesis H_bool : forall b, P (VBool b).
Hypothesis H_num : forall n, P (VNum n).
Hypothesis H_str : forall s, P (VStr s).
Hypothesis H_arr : forall items, Forall P items -> P (VArr items).
Hypothesis H_obj : forall entries, Forall (fun kv => P (snd kv)) entries -> P (VObj entries).

Fixpoint value_nested_ind (v : value) : P v :=
  match v with
  | VUndefined => H_undefined
  | VNull => H_null
  | VBool b => H_bool b
  | VNum n => H_num n
  | VStr s => H_str s
  | VArr items =>
      H_arr items
        ((fix go (l : list value) : Forall P l :=
            match l with
            | [] => @List.Forall_nil _ P
            | x :: l' => @List.Forall_cons _ P x l' (value_nested_ind x) (go l')
            end) items)
  | VObj entries =>
      H_obj entries
        ((fix go (l : list (string * value)) : Forall (fun kv => P (snd kv)) l :=
            match l with
            | [] => @List.Forall_nil _ _
            | kv :: l' => @List.Forall_cons _ _ kv l' (value_nested_ind (snd kv)) (go l')
            end) entries)
  end.

End value_induction.

Section SortFacts.
Context {host : Host}.

Lemma compare_keys_fst {A B} (a : string * A) (b : string * A) (a' b' : string * B) :
  fst a = fst a' -> fst b = fst b' -> compare_keys a b = compare_keys a' b'.
Proof. unfold compare_keys. by intros -> ->. Qed.

(** Sorting looks at the keys only. *)
Lemma sort_insert_values {A B} (f : A -> B) (x : string * A) l :
  sort_insert compare_keys (fst x, f (snd x)) (map (fun kv => (fst kv, f (snd kv))) l) =
  map (fun kv => (fst kv, f (snd kv))) (sort_insert compare_keys x l).
Proof.
  induction l as [|y l IH]; simpl; [reflexivity|].
  rewrite (compare_keys_fst (fst x, f (snd x)) (fst y, f (snd y)) x y) by reflexivity.
  destruct (compare_keys x y); simpl; by rewrite ?IH.
Qed.

Lemma Array_sort_values {A B} (f : A -> B) (l : list (string * A)) :
  Array_sort compare_keys (map (fun kv => (fst kv, f (snd kv))) l) =
  map (fun kv => (fst kv, f (snd kv))) (Array_sort compare_keys l).
Proof.
  induction l as [|x l IH]; simpl; [reflexivity|].
  by rewrite IH, sort_insert_values.
Qed.

Hypothesis order : KeyPreorder localeCompare.

Lemma compare_keys_Lt_Gt {A} (x y : string * A) :
  compare_keys x y = Lt -> compare_keys y x = Gt.
Proof.
  unfold compare_keys. intros H.
  by rewrite (compare_antisym _ order), H.
Qed.

Lemma compare_keys_Gt_Lt {A} (x y : string * A) :
  compare_keys x y = Gt -> compare_keys y x = Lt.
Proof.
  unfold compare_keys. intros H.
  by rewrite (compare_antisym _ order), H.
Qed.

Lemma compare_keys_below {A} (x y z : string * A) :
  compare_keys x y = Lt -> compare_keys y z <> Gt -> compare_keys x z = Lt.
Proof. unfold compare_keys. apply (compare_below _ order). Qed.

Lemma sort_insert_comm {A} (x y : string * A) l :
  compare_keys x y = Lt ->
  sort_insert compare_keys x (sort_insert compare_keys y l) =
  sort_insert compare_keys y (sort_insert compare_keys x l).
Proof.
  intros Hxy. pose proof (compare_keys_Lt_Gt x y Hxy) as Hyx.
  induction l as [|z l IH]; simpl.
  - by rewrite Hxy, Hyx.
  - destruct (compare_keys y z) eqn:Eyz.
    + simpl. rewrite Hxy.
      rewrite (compare_keys_below x y z Hxy) by (by rewrite Eyz).
      simpl. by rewrite Hyx, Eyz.
    + simpl. rewrite Hxy.
      rewrite (compare_keys_below x y z Hxy) by (by rewrite Eyz).
      simpl. by rewrite Hyx, Eyz.
    + simpl. destruct (compare_keys x z) eqn:Exz; simpl.
      * by rewrite Hyx, Eyz.
      * by rewrite Hyx, Eyz.
      * by rewrite Eyz, IH.
Qed.

Lemma apart_keys_ordered {A} (x y : string * A) :
  localeCompare (fst x) (fst y) <> Eq -> compare_keys x y = Lt \/ compare_keys y x = Lt.
Proof.
  intros Hne. destruct (compare_keys x y) eqn:E.
  - done.
  - by left.
  - right. by apply compare_keys_Gt_Lt.
Qed.

Lemma apart_symmetric a b : localeCompare a b <> Eq -> localeCompare b a <> Eq.
Proof.
  intros H. rewrite (compare_antisym _ order).
  by destruct (localeCompare a b).
Qed.

Lemma apart_Permutation keys1 keys2 : Permutation keys1 keys2 -> apart keys1 -> apart keys2.
Proof.
  induction 1 as [|k l1 l2 Hp IH|x y l|l1 l2 l3 Hp1 IH1 Hp2 IH2]; intros H.
  - exact H.
  - inversion H as [|? ? Hk Hl]; subst. constructor; [by rewrite <- Hp|by apply IH].
  - inversion H as [|? ? Hy Hxl]; subst. inversion Hxl as [|? ? Hx Hl]; subst.
    inversion Hy as [|? ? Hyx Hyl]; subst.
    constructor.
    + constructor; [by apply apart_symmetric|exact Hx].
    + by constructor.
  - by apply IH2, IH1.
Qed.

(** Entries of which no two keys compare equal are sorted alike from every
    order in which they come. *)
Lemma Array_sort_Permutation {A} (l1 l2 : list (string * A)) :
  Permutation l1 l2 -> apart (map fst l1) ->
  Array_sort compare_keys l1 = Array_sort compare_keys l2.
Proof.
  induction 1 as [|x l1 l2 Hp IH|x y l|l1 l2 l3 Hp1 IH1 Hp2 IH2]; intros Hnd.
  - reflexivity.
  - simpl. rewrite IH; [reflexivity|]. by inversion Hnd.
  - simpl. simpl in Hnd.
    assert (Hne : localeCompare (fst x) (fst y) <> Eq).
    { inversion Hnd as [|? ? Hy _]; subst. inversion Hy as [|? ? Hyx _]; subst.
      by apply apart_symmetric. }
    destruct (apart_keys_ordered x y Hne) as [Hlt|Hlt].
    + symmetry. by apply sort_insert_comm.
    + by apply sort_insert_comm.
  - rewrite IH1 by exact Hnd. apply IH2.
    apply (apart_Permutation (map fst l1)); [by apply Permutation_map|exact Hnd].
Qed.

End SortFacts.

Section CacheKeyTheorems.
Context {host : Host}.

(** The line of the source: the entries are sorted by key, then rendered. *)
Lemma stableStringify_object entries :
  stableStringify (VObj entries) =
  Some ("{" +:+ Array_join
                  (map (fun kv => JSON_stringify_string (fst kv) +:+ ":" +:+
                                  template_item (stableStringify (snd kv)))
                     (Array_sort compare_keys entries))
            +:+ "}").
Proof.
  simpl. rewrite (Array_sort_values stableStringify entries).
  by rewrite map_map.
Qed.

(** Objects with the same keys in the same order, whose values are
    serialized alike, are serialized alike. *)
Lemma stableStringify_same_keys entries1 entries2 :
  Forall2 (fun a b => fst a = fst b /\ stableStringify (snd a) = stableStringify (snd b))
    entries1 entries2 ->
  stableStringify (VObj entries1) = stableStringify (VObj entries2).
Proof.
  intros H.
  assert (Hmap : map (fun kv => (fst kv, stableStringify (snd kv))) entries1 =
                 map (fun kv => (fst kv, stableStringify (snd kv))) entries2).
  { induction H as [|x y l l' [Hk Hv] Hl IHl]; [reflexivity|].
    simpl. by rewrite Hk, Hv, IHl. }
  simpl. by rewrite Hmap.
Qed.

Lemma stableStringify_items items1 items2 :
  Forall2 (fun a b => stableStringify a = stableStringify b) items1 items2 ->
  stableStringify (VArr items1) = stableStringify (VArr items2).
Proof.
  intros H.
  assert (Hmap : map (fun v => join_item (stableStringify v)) items1 =
                 map (fun v => join_item (stableStringify v)) items2).
  { induction H as [|x y l l' Hxy Hl IHl]; [reflexivity|]. simpl. by rewrite Hxy, IHl. }
  simpl. by rewrite Hmap.
Qed.

Lemma stableStringify_reordered :
  KeyPreorder localeCompare ->
  forall v1 v2, reordered v1 v2 -> told_apart v1 -> stableStringify v1 = stableStringify v2.
Proof.
  intros order v1.
  induction v1 as [| | | | |items IH|entries IH] using value_nested_ind;
    intros v2 H Hta;
    inversion H as [| | | | |? items2 Hitems|? shuffled entries2 Hnd Hperm Hent];
    subst; try reflexivity.
  - apply stableStringify_items.
    inversion Hta as [| | | | |? Htas|]; subst. clear H Hta.
    induction Hitems as [|x y l l' Hxy Hl IHl]; [constructor|].
    inversion IH as [|? ? Hx Hrest]; subst.
    inversion Htas as [|? ? Htx Htrest]; subst.
    constructor; [by apply Hx|by apply IHl].
  - inversion Hta as [| | | | | |? Hkeys Htas]; subst.
    transitivity (stableStringify (VObj shuffled)).
    + simpl.
      rewrite (Array_sort_Permutation order
                 (map (fun kv => (fst kv, stableStringify (snd kv))) entries)
                 (map (fun kv => (fst kv, stableStringify (snd kv))) shuffled)).
      * reflexivity.
      * by apply Permutation_map.
      * by rewrite map_map.
    + apply stableStringify_same_keys.
      rewrite Hperm in IH. rewrite Hperm in Htas. clear H Hta Hperm Hnd Hkeys.
      induction Hent as [|x y l l' [Hk Hv] Hl IHl]; [constructor|].
      inversion IH as [|? ? Hx Hrest]; subst.
      inversion Htas as [|? ? Htx Htrest]; subst.
      constructor; [split; [exact Hk|by apply Hx]|by apply IHl].
Qed.

Lemma stableStringify_all_reordered :
  KeyPreorder localeCompare ->
  forall items1 items2,
    Forall2 reordered items1 items2 -> Forall told_apart items1 ->
    stableStringify (VArr items1) = stableStringify (VArr items2).
Proof.
  intros order items1 items2 H Hta. apply stableStringify_items.
  induction H as [|x y l l' Hxy Hl IHl]; [constructor|].
  inversion Hta as [|? ? Htx Htrest]; subst.
  constructor; [by apply stableStringify_reordered|by apply IHl].
Qed.

(** X24. When the comparison of keys is that of a total preorder, as it is
    on every host, a value in whose objects no two keys compare equal and the
    same value with the keys of its objects in another order, at any depth,
    are serialized alike; so two requests with the same fields up to that
    order, and up to an unset temperature standing for 0, have the same cache
    key when no two keys of an object in the messages and the tools compare
    equal. *)
Theorem cacheKey_ignores_order_of_keys_told_apart :
  KeyPreorder localeCompare ->
  (forall v1 v2, reordered v1 v2 -> told_apart v1 -> stableStringify v1 = stableStringify v2) /\
  (forall a1 a2,
     same_request a1 a2 -> request_told_apart a1 -> cacheKey a1 = cacheKey a2).
Proof.
  intros order. split; [exact (stableStringify_reordered order)|].
  intros a1 a2 (Hmodel & Hmessages & Hschema & Htemp & Hmax & Htools) [Hm Ht].
  unfold cacheKey, cacheKey_request. f_equal.
  apply stableStringify_same_keys. rewrite Hmodel, Hschema, Htemp, Hmax.
  repeat (apply List.Forall2_cons; [split; [reflexivity|]|]); try reflexivity.
  - by apply stableStringify_all_reordered.
  - by apply stableStringify_all_reordered.
  - constructor.
Qed.

End CacheKeyTheorems.

(** Comparing strings by their characters after a change [f] of the strings
    is the comparison of a total preorder. *)
Lemma String_compare_preorder (f : string -> string) :
  KeyPreorder (fun a b => String_as_OT.compare (f a) (f b)).
Proof.
  assert (Hanti : forall a b, String_as_OT.compare b a = CompOpp (String_as_OT.compare a b)).
  { intros a b.
    destruct (String_as_OT.compare_spec a b) as [Hab|Hab|Hab],
             (String_as_OT.compare_spec b a) as [Hba|Hba|Hba];
      try reflexivity; subst; exfalso.
    all: unfold String_as_OT.eq in *; subst.
    all: first [ by eapply (irreflexivity String_as_OT.lt)
               | eapply (irreflexivity String_as_OT.lt); etransitivity; eassumption ]. }
  split.
  - intros a b. apply Hanti.
  - intros a b c Hab Hbc.
    destruct (String_as_OT.compare_spec (f b) (f c)) as [Hbc'|Hbc'|Hbc']; [| |done].
    + unfold String_as_OT.eq in Hbc'. by rewrite <- Hbc'.
    + change (String_as_OT.lt (f a) (f c)). transitivity (f b); assumption.
Qed.

(** The character U+007F, which the collation of [localeCompare] ignores. *)
Definition DELETE : ascii := ascii_of_nat 127.

Fixpoint without_ignorable (s : string) : string :=
  match s with
  | EmptyString => EmptyString
  | String c rest =>
      if Ascii.eqb c DELETE then without_ignorable rest
      else String c (without_ignorable rest)
  end.

(** A host like [exampleHost] but for [localeCompare]: as the collation of
    [String.prototype.localeCompare] does, it ignores the control character
    U+007F, so that it gives 0 for keys that differ in that character only;
    the other characters are compared by their codes. *)
Definition collatingHost : Host :=
  {| JSON_stringify_number := fun _ => "0";
     JSON_stringify_string := quote;
     JSON_parse := fun s =>
       if String.eqb s "null" then Some VNull
       else if String.eqb s "true" then Some (VBool true)
       else if String.eqb s "false" then Some (VBool false)
       else None;
     localeCompare := fun a b =>
       String_as_OT.compare (without_ignorable a) (without_ignorable b) |}.

(** The key "a" followed by U+007F. *)
Definition tiedKey : string := String "a" (String DELETE "").

(** Two requests that differ in the order of the keys "a" and [tiedKey] of
    their one tool. *)
Definition tiedArgs : LLMGenerateArgs :=
  {| model := "m"; messages := []; schema := None; temperature := None;
     maxTokens := None;
     tools := Some [VObj [("a", VBool true); (tiedKey, VBool false)]] |}.

Definition tiedArgsSwapped : LLMGenerateArgs :=
  {| model := "m"; messages := []; schema := None; temperature := None;
     maxTokens := None;
     tools := Some [VObj [(tiedKey, VBool false); ("a", VBool true)]] |}.

(** C4. The cache key depends on the order of keys that [localeCompare]
    does not tell apart.  On a host whose [localeCompare] gives 0 for the
    keys "a" and "a" followed by U+007F, two requests that are the same but
    for the order of these two keys in their tool have different cache keys:
    the sort leaves entries whose keys compare equal in the order in which
    they came, so each tool is serialized in its own order. *)
Theorem cacheKey_depends_on_order_of_tied_keys :
  "a" <> tiedKey /\
  localeCompare (Host := collatingHost) "a" tiedKey = Eq /\
  same_request tiedArgs tiedArgsSwapped /\
  stableStringify (host := collatingHost) (VObj [("a", VBool true); (tiedKey, VBool false)])
    = Some ("{" +:+ quote "a" +:+ ":true," +:+ quote tiedKey +:+ ":false}") /\
  stableStringify (host := collatingHost) (VObj [(tiedKey, VBool false); ("a", VBool true)])
    = Some ("{" +:+ quote tiedKey +:+ ":false," +:+ quote "a" +:+ ":true}") /\
  cacheKey (host := collatingHost) tiedArgs
    <> cacheKey (host := collatingHost) tiedArgsSwapped.
Proof.
  split; [discriminate|]. split; [reflexivity|]. split.
  - repeat split; try by constructor.
    simpl. constructor; [|constructor].
    apply reordered_object with (shuffled := [(tiedKey, VBool false); ("a", VBool true)]).
    + by apply (bool_decide_unpack _).
    + apply perm_swap.
    + repeat (apply List.Forall2_cons; [split; [reflexivity|constructor]|]). constructor.
  - split; [reflexivity|]. split; [reflexivity|].
    intros H. vm_compute in H. discriminate H.
Qed.

(** The request [plainArgs] with the keys of its message in the other order
    and the temperature written out. *)
Definition swappedArgs : LLMGenerateArgs :=
  {| model := "m";
     messages := [VObj [("content", VStr "hi"); ("role", VStr "user")]];
     schema := None; temperature := Some 0%float; maxTokens := None;
     tools := Some [] |}.

Lemma swapped_same_request : same_request plainArgs swappedArgs.
Proof.
  repeat split; try by constructor.
  simpl. constructor; [|constructor].
  apply reordered_object with (shuffled := [("content", VStr "hi"); ("role", VStr "user")]).
  - by apply (bool_decide_unpack _).
  - apply perm_swap.
  - repeat (apply List.Forall2_cons; [split; [reflexivity|constructor]|]). constructor.
Qed.

Lemma plainArgs_told_apart : request_told_apart (host := collatingHost) plainArgs.
Proof.
  split; [|constructor].
  constructor; [|constructor].
  constructor.
  - repeat (constructor; try discriminate).
  - repeat constructor.
Qed.

Lemma cacheKey_ignores_order_of_keys_told_apart_witness :
  cacheKey (host := collatingHost) plainArgs = cacheKey (host := collatingHost) swappedArgs.
Proof.
  exact (proj2 (cacheKey_ignores_order_of_keys_told_apart (host := collatingHost)
                  (String_compare_preorder without_ignorable))
           plainArgs swappedArgs swapped_same_request plainArgs_told_apart).
Defined.

(** * Further functions of the packages *)

(** ** packages/core and packages/tools: the tool registry *)

Record Tool {U : Type} := {
  tool_name : string;
  tool_input : ZodType;
  tool_output : ZodType;
  invoke : Ctx U -> value -> M U value;
}.
Arguments Tool U : clear implicits.

Module InMemoryToolRegistry.
Section InMemoryToolRegistry.
Context {U : Type}.

(** The registry is its private map [tools], from the name to the tool. *)
Definition register (tool : Tool U) (self : gmap string (Tool U)) : gmap string (Tool U) :=
  <[tool_name tool := tool]> self.

Definition call (self : gmap string (Tool U)) (name : string) (ctx : Ctx U) (i : value)
    : M U value :=
  match self !! name with
  | None => throw (ToolError ("Tool not found: " +:+ name))
  | Some tool =>
      validatedInput <- validateWithZod (tool_input tool) i input_dir
                          (RuntimeCtx.trace ctx) (RuntimeCtx.spanId ctx) ;;
      try_catch
        (out <- invoke tool ctx validatedInput ;;
         validatedOutput <- validateWithZod (tool_output tool) out output_dir
                              (RuntimeCtx.trace ctx) (RuntimeCtx.spanId ctx) ;;
         now <- Date_now ;;
         Trace.emit (RuntimeCtx.trace ctx)
           (tool_call now (RuntimeCtx.runId ctx) (RuntimeCtx.spanId ctx) (tool_name tool)
              i (Some validatedOutput) None) ;;;
         ret validatedOutput)
        (fun err =>
           now <- Date_now ;;
           Trace.emit (RuntimeCtx.trace ctx)
             (tool_call now (RuntimeCtx.runId ctx) (RuntimeCtx.spanId ctx) (tool_name tool)
                i None (Some (errorText err))) ;;;
           throw err)
  end.

End InMemoryToolRegistry.
End InMemoryToolRegistry.

(** [createToolRegistry(tools)]: a new registry with every tool registered,
    in the order of the array. *)
Definition createToolRegistry {U} (tools : list (Tool U)) : gmap string (Tool U) :=
  fold_left (fun registry tool => InMemoryToolRegistry.register tool registry) tools ∅.

Definition defineTool {U} (tool : Tool U) : Tool U := tool.

Definition is_tool_call (fx : Effect) : bool :=
  match fx with
  | SinkWrite (tool_call _ _ _ _ _ _ _) => true
  | _ => false
  end.

(** The tools of a list that have the name [name], in the order of the list. *)
Definition tools_named {U} (name : string) (tools : list (Tool U)) : list (Tool U) :=
  List.filter (fun tool => String.eqb (tool_name tool) name) tools.

Section ToolTheorems.
Context {U : Type}.

Definition tool_validation_error (ctx : Ctx U) (s : State U) (direction : Direction)
    (issues : value) : Effect :=
  SinkWrite (validation_error (clock s) (Trace.runId (RuntimeCtx.trace ctx))
               (RuntimeCtx.spanId ctx) direction issues).

Definition tool_call_effect (ctx : Ctx U) (tool : Tool U) (s : State U) (i : value)
    (out : option value) (error : option string) : Effect :=
  SinkWrite (tool_call (clock s) (RuntimeCtx.runId ctx) (RuntimeCtx.spanId ctx)
               (tool_name tool) i out error).

Lemma register_all_lookup (tools : list (Tool U)) (registry : gmap string (Tool U)) name :
  fold_left (fun registry tool => InMemoryToolRegistry.register tool registry)
    tools registry !! name =
  match last (tools_named name tools) with
  | Some tool => Some tool
  | None => registry !! name
  end.
Proof.
  revert registry. induction tools as [|tool tools IH]; intros registry; [reflexivity|].
  simpl fold_left. rewrite IH. unfold tools_named. simpl.
  unfold InMemoryToolRegistry.register.
  destruct (String.eqb (tool_name tool) name) eqn:E.
  - apply String.eqb_eq in E. rewrite last_cons.
    destruct (last _); [reflexivity|]. by rewrite <- E, lookup_insert_eq.
  - apply String.eqb_neq in E. destruct (last _); [reflexivity|].
    by rewrite lookup_insert_ne.
Qed.

(** X1. A call of a name that no tool of the registry has throws the tool
    error that names it; nothing is validated, invoked or written to the
    trace.  So does every call on the registry made from no tools. *)
Theorem call_unregistered_tool (tools : list (Tool U)) name ctx i s :
  tools_named name tools = [] ->
  InMemoryToolRegistry.call (createToolRegistry tools) name ctx i s =
  (Throw (ToolError ("Tool not found: " +:+ name)), s, []).
Proof.
  intros H. unfold InMemoryToolRegistry.call, createToolRegistry.
  by rewrite register_all_lookup, H, lookup_empty.
Qed.

(** X2. A call whose input the tool's input schema rejects writes the
    [validation_error] event and throws the validation error; the tool is
    not invoked (the world is as before) and no [tool_call] event is written,
    the validation being before the [try]. *)
Theorem call_tool_invalid_input (registry : gmap string (Tool U)) name tool ctx i s issues :
  registry !! name = Some tool ->
  safeParse (tool_input tool) i = parse_failure issues ->
  let r := InMemoryToolRegistry.call registry name ctx i s in
  r = (Throw (ValidationError issues "input validation failed"), s,
       [tool_validation_error ctx s input_dir issues]) /\
  count_effects is_tool_call (snd r) = 0.
Proof.
  intros Hl Hp r. subst r.
  unfold InMemoryToolRegistry.call, bind, validateWithZod. rewrite Hl. simpl.
  rewrite Hp. by split.
Qed.

(** X3. A call with a valid input invokes the tool on the validated input
    and writes one [tool_call] event after it, on each of the three ways out:
    with the validated output when the tool returned and its output is
    valid; with the message of the validation error, after the
    [validation_error] event, when the output is rejected (the output is not
    returned); with the message of the error that the tool threw, which is
    thrown on unchanged.  The event carries the input as it was given. *)
Theorem call_tool_valid_input (registry : gmap string (Tool U)) name tool ctx i s data :
  registry !! name = Some tool ->
  safeParse (tool_input tool) i = parse_success data ->
  InMemoryToolRegistry.call registry name ctx i s =
  match invoke tool ctx data s with
  | (Ok out, s1, fxt) =>
      match safeParse (tool_output tool) out with
      | parse_success validated =>
          (Ok validated, s1,
           fxt ++ [tool_call_effect ctx tool s1 i (Some validated) None])
      | parse_failure issues =>
          (Throw (ValidationError issues "output validation failed"), s1,
           fxt ++ [tool_validation_error ctx s1 output_dir issues;
                   tool_call_effect ctx tool s1 i None
                     (Some "output validation failed")])
      end
  | (Throw err, s1, fxt) =>
      (Throw err, s1, fxt ++ [tool_call_effect ctx tool s1 i None (Some (errorText err))])
  end.
Proof.
  intros Hl Hp.
  unfold InMemoryToolRegistry.call, bind, try_catch, validateWithZod. rewrite Hl. simpl.
  rewrite Hp. simpl.
  destruct (invoke tool ctx data s) as [[[out|err] s1] fxt]; [|reflexivity].
  destruct (safeParse (tool_output tool) out) as [validated|issues]; simpl.
  - reflexivity.
  - by rewrite <- app_assoc.
Qed.

(** X4. Registering replaces: in the registry made from an array of
    tools, a name stands for the last tool of the array with that name, and
    for none when the array has no tool of that name; registering one more
    tool changes the entry of its name only. *)
Theorem createToolRegistry_last_wins (tools : list (Tool U)) name :
  createToolRegistry tools !! name = last (tools_named name tools) /\
  (forall tool,
     InMemoryToolRegistry.register tool (createToolRegistry tools) !! tool_name tool
       = Some tool /\
     (tool_name tool <> name ->
      InMemoryToolRegistry.register tool (createToolRegistry tools) !! name
        = createToolRegistry tools !! name)).
Proof.
  split.
  - unfold createToolRegistry. rewrite register_all_lookup, lookup_empty.
    by destruct (last _).
  - intros tool. unfold InMemoryToolRegistry.register. split.
    + by rewrite lookup_insert_eq.
    + intros Hne. by rewrite lookup_insert_ne.
Qed.

End ToolTheorems.

Definition echoTool : Tool unit :=
  {| tool_name := "echo"; tool_input := nonEmptyString; tool_output := anySchema;
     invoke := fun _ i => ret i |}.

Definition brokenTool : Tool unit :=
  {| tool_name := "echo"; tool_input := anySchema; tool_output := anySchema;
     invoke := fun _ _ => throw (Error "broken") |}.

Lemma call_unregistered_tool_witness :
  InMemoryToolRegistry.call (createToolRegistry [echoTool]) "search" someCtx VNull state0 =
  (Throw (ToolError "Tool not found: search"), state0, []).
Proof. exact (call_unregistered_tool [echoTool] "search" someCtx VNull state0 eq_refl). Defined.

Lemma call_tool_invalid_input_witness :
  InMemoryToolRegistry.call (createToolRegistry [echoTool]) "echo" someCtx (VStr "") state0 =
  (Throw (ValidationError (VArr [VStr "too_small"]) "input validation failed"), state0,
   [tool_validation_error someCtx state0 input_dir (VArr [VStr "too_small"])]).
Proof.
  exact (proj1 (call_tool_invalid_input (createToolRegistry [echoTool]) "echo" echoTool
                  someCtx (VStr "") state0 (VArr [VStr "too_small"]) eq_refl eq_refl)).
Defined.

(** The later of two tools of one name is the one that is called. *)
Lemma call_tool_valid_input_witness :
  InMemoryToolRegistry.call (createToolRegistry [echoTool; brokenTool]) "echo" someCtx
    (VStr "x") state0 =
  (Throw (Error "broken"), state0,
   [tool_call_effect someCtx brokenTool state0 (VStr "x") None (Some "broken")]).
Proof.
  exact (call_tool_valid_input (createToolRegistry [echoTool; brokenTool]) "echo"
           brokenTool someCtx (VStr "x") state0 (VStr "x") eq_refl eq_refl).
Defined.

(** ** packages/core: spans, wrappers and the orchestrator, further properties *)

Section SpanTheorems.
Context {U : Type}.

(** X5. [Trace.span] writes the [span_start] of a new child span, runs the
    function, and writes the [span_end] of that span after the effects of the
    function, whether the function returned (its result is returned) or
    threw (the [span_end] carries the message and the error is thrown on
    unchanged).  That [span_end] is the only one of the span when the function
    wrote none for it. *)
Theorem Trace_span_closes {T} (self : Trace.t) (name : string) (fn : M U T)
    (meta : option value) (s : State U) :
  let start :=
    SinkWrite (span_start (clock s) (Trace.runId self) (nextUUID s)
                 (Some (Trace.spanId self)) name meta) in
  let stop s1 error :=
    SinkWrite (span_end (clock s1) (Trace.runId self) (nextUUID s)
                 (Some (Trace.spanId self)) name
                 (PrimFloat.sub (clock s1) (clock s)) error) in
  let r := Trace.span self name fn meta s in
  r = match fn (after_uuids 1 s) with
      | (Ok result, s1, fxf) => (Ok result, s1, start :: fxf ++ [stop s1 None])
      | (Throw err, s1, fxf) =>
          (Throw err, s1, start :: fxf ++ [stop s1 (Some (errorText err))])
      end /\
  ((forall e, In e (snd (fn (after_uuids 1 s))) -> is_span_end_of (nextUUID s) e = false) ->
   count_effects (is_span_end_of (nextUUID s)) (snd r) = 1).
Proof.
  intros start stop r.
  assert (Hr : r = match fn (after_uuids 1 s) with
                   | (Ok result, s1, fxf) => (Ok result, s1, start :: fxf ++ [stop s1 None])
                   | (Throw err, s1, fxf) =>
                       (Throw err, s1, start :: fxf ++ [stop s1 (Some (errorText err))])
                   end).
  { subst r. unfold Trace.span, Trace.child, bind, try_catch. simpl.
    change {| nextUUID := S (nextUUID s); clock := clock s; cacheStore := cacheStore s;
              world := world s |} with (after_uuids 1 s).
    by destruct (fn (after_uuids 1 s)) as [[[result|err] s1] fxf]. }
  split; [exact Hr|]. intros Hfn. rewrite Hr.
  destruct (fn (after_uuids 1 s)) as [[[result|err] s1] fxf]; simpl in *.
  all: change (start :: fxf ++ ?l) with ([start] ++ fxf ++ l).
  all: rewrite !count_effects_app, (count_effects_none _ fxf Hfn).
  all: unfold count_effects; simpl; by rewrite Nat.eqb_refl.
Qed.

(** X6. A wrapped step or workflow whose input is valid runs the body on
    the validated input in the child context and writes exactly one
    [span_end] for the span it started, after the effects of the body: without
    an error when the body returned and the output is valid (the validated
    output is returned); with the message of the validation error, after the
    [validation_error] event of direction output, when the output is rejected;
    with the message of the error of the body, thrown on unchanged, when the
    body threw. *)
Theorem wrapper_closes_span_after_body (step : Step U) ctx i s data :
  safeParse (input step) i = parse_success data ->
  let r := run (defineStep step) ctx i s in
  let body := run step (child_ctx ctx s) data (after_uuids 1 s) in
  let start := child_span_start ctx (name step) s in
  let stop := child_span_end ctx (name step) s (snd (fst body)) in
  run (defineWorkflow step) ctx i s = r /\
  snd (fst r) = snd (fst body) /\
  match fst (fst body) with
  | Ok result =>
      match safeParse (output step) result with
      | parse_success out =>
          fst (fst r) = Ok out /\ snd r = start :: snd body ++ [stop None]
      | parse_failure issues =>
          fst (fst r) = Throw (ValidationError issues "output validation failed") /\
          snd r = start :: snd body ++
                    [SinkWrite (validation_error (clock (snd (fst body)))
                                  (Trace.runId (RuntimeCtx.trace ctx)) (nextUUID s)
                                  output_dir issues);
                     stop (Some "output validation failed")]
      end
  | Throw err =>
      fst (fst r) = Throw err /\
      snd r = start :: snd body ++ [stop (Some (errorText err))]
  end /\
  ((forall e, In e (snd body) -> is_span_end_of (nextUUID s) e = false) ->
   count_effects (is_span_end_of (nextUUID s)) (snd r) = 1).
Proof.
  intros H r body start stop.
  pose proof (defineStep_valid_input step ctx i s data H) as Hr.
  fold r in Hr. fold body in Hr.
  split; [reflexivity|]. rewrite Hr. subst start stop.
  destruct body as [[[result|err] s1] fxb]; simpl.
  - destruct (safeParse (output step) result) as [out|issues]; simpl.
    + repeat split. intros Hb.
      change (?x :: fxb ++ ?l) with ([x] ++ fxb ++ l).
      rewrite !count_effects_app, (count_effects_none _ fxb Hb).
      unfold count_effects; simpl; by rewrite Nat.eqb_refl.
    + repeat split. intros Hb.
      change (?x :: fxb ++ ?l) with ([x] ++ fxb ++ l).
      rewrite !count_effects_app, (count_effects_none _ fxb Hb).
      unfold count_effects; simpl; by rewrite Nat.eqb_refl.
  - repeat split. intros Hb.
    change (?x :: fxb ++ ?l) with ([x] ++ fxb ++ l).
    rewrite !count_effects_app, (count_effects_none _ fxb Hb).
    unfold count_effects; simpl; by rewrite Nat.eqb_refl.
Qed.

(** A workflow that hands its context and input to a wrapped step. *)
Definition delegating (workflowName : string) (inS outS : ZodType) (inner : Step U)
    : Workflow U :=
  defineWorkflow {| name := workflowName; input := inS; output := outS;
                    run := fun ctx i => run (defineStep inner) ctx i |}.

(** X7. A wrapped workflow whose body calls a wrapped step with the context
    it got, when the body of the step throws: the two spans are nested (the
    span of the step has the span of the workflow as its parent and is
    closed first), both [span_end] events carry the message of the error, and
    the error reaches the caller unchanged. *)
Theorem nested_failure_closes_both_spans (workflowName : string) (inS outS : ZodType)
    (inner : Step U) ctx i s d d' err s1 fxb :
  safeParse inS i = parse_success d ->
  safeParse (input inner) d = parse_success d' ->
  run inner (child_ctx (child_ctx ctx s) (after_uuids 1 s)) d' (after_uuids 2 s)
    = (Throw err, s1, fxb) ->
  let runId := Trace.runId (RuntimeCtx.trace ctx) in
  let outerId := nextUUID s in
  let innerId := S (nextUUID s) in
  run (delegating workflowName inS outS inner) ctx i s =
  (Throw err, s1,
   [SinkWrite (span_start (clock s) runId outerId
                 (Some (Trace.spanId (RuntimeCtx.trace ctx))) workflowName None);
    SinkWrite (span_start (clock s) runId innerId (Some outerId) (name inner) None)]
   ++ fxb ++
   [SinkWrite (span_end (clock s1) runId innerId (Some outerId) (name inner)
                 (PrimFloat.sub (clock s1) (clock s)) (Some (errorText err)));
    SinkWrite (span_end (clock s1) runId outerId
                 (Some (Trace.spanId (RuntimeCtx.trace ctx))) workflowName
                 (PrimFloat.sub (clock s1) (clock s)) (Some (errorText err)))]).
Proof.
  intros Hi Hd Hb runId outerId innerId. unfold delegating.
  rewrite defineWorkflow_defineStep.
  rewrite (defineStep_valid_input
             {| name := workflowName; input := inS; output := outS;
                run := fun ctx i => run (defineStep inner) ctx i |} ctx i s d Hi).
  cbn [run name input output].
  rewrite (defineStep_valid_input inner (child_ctx ctx s) d (after_uuids 1 s) d' Hd).
  change (after_uuids 1 (after_uuids 1 s)) with (after_uuids 2 s).
  rewrite Hb. simpl. by rewrite <- app_assoc.
Qed.

(** X8. The same nesting when everything succeeds: the validated output of
    the step, validated again by the workflow, is returned, and the spans are
    closed in the reverse order of their starts, without an error. *)
Theorem nested_success_brackets_spans (workflowName : string) (inS outS : ZodType)
    (inner : Step U) ctx i s d d' v v' v'' s1 fxb :
  safeParse inS i = parse_success d ->
  safeParse (input inner) d = parse_success d' ->
  run inner (child_ctx (child_ctx ctx s) (after_uuids 1 s)) d' (after_uuids 2 s)
    = (Ok v, s1, fxb) ->
  safeParse (output inner) v = parse_success v' ->
  safeParse outS v' = parse_success v'' ->
  let runId := Trace.runId (RuntimeCtx.trace ctx) in
  let outerId := nextUUID s in
  let innerId := S (nextUUID s) in
  run (delegating workflowName inS outS inner) ctx i s =
  (Ok v'', s1,
   [SinkWrite (span_start (clock s) runId outerId
                 (Some (Trace.spanId (RuntimeCtx.trace ctx))) workflowName None);
    SinkWrite (span_start (clock s) runId innerId (Some outerId) (name inner) None)]
   ++ fxb ++
   [SinkWrite (span_end (clock s1) runId innerId (Some outerId) (name inner)
                 (PrimFloat.sub (clock s1) (clock s)) None);
    SinkWrite (span_end (clock s1) runId outerId
                 (Some (Trace.spanId (RuntimeCtx.trace ctx))) workflowName
                 (PrimFloat.sub (clock s1) (clock s)) None)]).
Proof.
  intros Hi Hd Hb Hv Hv' runId outerId innerId. unfold delegating.
  rewrite defineWorkflow_defineStep.
  rewrite (defineStep_valid_input
             {| name := workflowName; input := inS; output := outS;
                run := fun ctx i => run (defineStep inner) ctx i |} ctx i s d Hi).
  cbn [run name input output].
  rewrite (defineStep_valid_input inner (child_ctx ctx s) d (after_uuids 1 s) d' Hd).
  change (after_uuids 1 (after_uuids 1 s)) with (after_uuids 2 s).
  rewrite Hb, Hv. simpl. rewrite Hv'. simpl. by rewrite <- app_assoc.
Qed.

End SpanTheorems.

Section OrchestratorFurther.
Context {U : Type}.

(** X10. A run whose input the input schema of the target rejects: the
    target is not invoked; after the root [span_start] the run writes the
    [validation_error] event, closes the root span with the message of the
    validation error, closes the sink and throws the validation error. *)
Theorem run_invalid_input (options : RuntimeOptions U) (target : Step U) i s issues :
  safeParse (input target) i = parse_failure issues ->
  createRuntime.run options target i s =
  (Throw (ValidationError issues "input validation failed"),
   after_uuids 2 s,
   [root_span_start target s;
    SinkWrite (validation_error (clock s) (nextUUID s) (S (nextUUID s)) input_dir issues);
    root_span_end target s (after_uuids 2 s) (Some "input validation failed");
    SinkClose]).
Proof.
  intros H. unfold createRuntime.run, bind, try_catch, validateWithZod. simpl.
  rewrite H. reflexivity.
Qed.

(** X11. A run of a wrapped step that succeeds: the input is validated by
    the orchestrator and the validated input again by the wrapper, and so is
    the output, in the other order; the span of the step is a child of the
    root span and is closed before it; the sink is closed last, and the
    record has the status success. *)
Theorem run_wrapped_step_success (options : RuntimeOptions U) (step : Step U)
    i s d d' v v' v'' s1 fxb :
  safeParse (input step) i = parse_success d ->
  safeParse (input step) d = parse_success d' ->
  run step (child_ctx (root_ctx options s) (after_uuids 2 s)) d' (after_uuids 3 s)
    = (Ok v, s1, fxb) ->
  safeParse (output step) v = parse_success v' ->
  safeParse (output step) v' = parse_success v'' ->
  let runId := nextUUID s in
  let rootId := S (nextUUID s) in
  let stepId := S (S (nextUUID s)) in
  createRuntime.run options (defineStep step) i s =
  (Ok (v'', {| record_runId := runId; target := name step; status := success;
               startedAt := clock s; endedAt := clock s1;
               durationMs := PrimFloat.sub (clock s1) (clock s) |}),
   s1,
   [SinkWrite (span_start (clock s) runId rootId None (name step) None);
    SinkWrite (span_start (clock s) runId stepId (Some rootId) (name step) None)]
   ++ fxb ++
   [SinkWrite (span_end (clock s1) runId stepId (Some rootId) (name step)
                 (PrimFloat.sub (clock s1) (clock s)) None);
    SinkWrite (span_end (clock s1) runId rootId None (name step)
                 (PrimFloat.sub (clock s1) (clock s)) None);
    SinkClose]).
Proof.
  intros Hi Hd Hb Hv Hv' runId rootId stepId.
  rewrite (run_success_record options (defineStep step) i s v'' s1
             (SinkWrite (span_start (clock s) runId stepId (Some rootId) (name step) None)
                :: fxb ++
                [SinkWrite (span_end (clock s1) runId stepId (Some rootId) (name step)
                              (PrimFloat.sub (clock s1) (clock s)) None)])).
  - simpl. by rewrite <- app_assoc.
  - unfold call_chain, bind.
    change (input (defineStep step)) with (input step).
    change (output (defineStep step)) with (output step).
    unfold validateWithZod at 1. rewrite Hi. cbv beta iota delta [ret].
    rewrite (defineStep_valid_input step (root_ctx options s) d (after_uuids 2 s) d' Hd).
    change (after_uuids 1 (after_uuids 2 s)) with (after_uuids 3 s).
    rewrite Hb, Hv. unfold validateWithZod. rewrite Hv'. simpl. by rewrite app_nil_r.
Qed.

(** X9. A run whose call chain returns: the run returns the output with a
    record of the status success that names the target and the run; after
    the effects of the call chain it writes the root [span_end] without an
    error and then closes the sink.  That [span_end] is the only one of the
    root span when the call chain wrote none for it. *)
Theorem run_success_closes_root_span (options : RuntimeOptions U) (target : Step U)
    i s out s1 inner :
  call_chain target (root_ctx options s) i (after_uuids 2 s) = (Ok out, s1, inner) ->
  let r := createRuntime.run options target i s in
  r = (Ok (out, {| record_runId := nextUUID s; target := name target; status := success;
                   startedAt := clock s; endedAt := clock s1;
                   durationMs := PrimFloat.sub (clock s1) (clock s) |}),
       s1,
       root_span_start target s :: inner ++ [root_span_end target s s1 None; SinkClose]) /\
  (exists record, produced_record r = Some record /\ status record = success) /\
  ((forall e, In e inner -> is_span_end_of (S (nextUUID s)) e = false) ->
   count_effects (is_span_end_of (S (nextUUID s))) (snd r) = 1).
Proof.
  intros H r. pose proof (run_success_record options target i s out s1 inner H) as Hr.
  fold r in Hr. split; [exact Hr|]. rewrite Hr. split.
  - eexists. by split.
  - intros Hinner. simpl snd.
    change (root_span_start target s :: inner ++ ?l)
      with ([root_span_start target s] ++ inner ++ l).
    rewrite !count_effects_app, (count_effects_none _ inner Hinner).
    unfold count_effects. simpl. by rewrite Nat.eqb_refl.
Qed.

End OrchestratorFurther.

Definition throwingStep : Step unit :=
  {| name := "inner"; input := anySchema; output := anySchema;
     run := fun _ _ => throw (Error "boom") |}.

Lemma wrapper_closes_span_after_body_witness :
  let r := run (defineStep throwingStep) someCtx (VStr "x") state0 in
  fst (fst r) = Throw (Error "boom") /\
  count_effects (is_span_end_of 0) (snd r) = 1.
Proof.
  destruct (wrapper_closes_span_after_body throwingStep someCtx (VStr "x") state0
              (VStr "x") eq_refl) as (_ & _ & [Hr _] & Hcount).
  split; [exact Hr|]. apply Hcount. intros e [].
Defined.

Lemma nested_failure_closes_both_spans_witness :
  run (delegating "outer" anySchema anySchema throwingStep) someCtx (VStr "x") state0 =
  (Throw (Error "boom"), after_uuids 2 state0,
   [SinkWrite (span_start 0%float 100 0 (Some 101) "outer" None);
    SinkWrite (span_start 0%float 100 1 (Some 0) "inner" None)]
   ++ [] ++
   [SinkWrite (span_end 0%float 100 1 (Some 0) "inner" (PrimFloat.sub 0 0) (Some "boom"));
    SinkWrite (span_end 0%float 100 0 (Some 101) "outer" (PrimFloat.sub 0 0) (Some "boom"))]).
Proof.
  exact (nested_failure_closes_both_spans "outer" anySchema anySchema throwingStep
           someCtx (VStr "x") state0 (VStr "x") (VStr "x") (Error "boom")
           (after_uuids 2 state0) [] eq_refl eq_refl eq_refl).
Defined.

Lemma nested_success_brackets_spans_witness :
  run (delegating "outer" anySchema anySchema echoStep) someCtx (VStr "x") state0 =
  (Ok (VStr "x"), after_uuids 2 state0,
   [SinkWrite (span_start 0%float 100 0 (Some 101) "outer" None);
    SinkWrite (span_start 0%float 100 1 (Some 0) "echo" None)]
   ++ [] ++
   [SinkWrite (span_end 0%float 100 1 (Some 0) "echo" (PrimFloat.sub 0 0) None);
    SinkWrite (span_end 0%float 100 0 (Some 101) "outer" (PrimFloat.sub 0 0) None)]).
Proof.
  exact (nested_success_brackets_spans "outer" anySchema anySchema echoStep
           someCtx (VStr "x") state0 (VStr "x") (VStr "x") (VStr "x") (VStr "x") (VStr "x")
           (after_uuids 2 state0) [] eq_refl eq_refl eq_refl eq_refl eq_refl).
Defined.

Lemma run_success_closes_root_span_witness :
  let r := createRuntime.run plainOptions echoStep (VStr "x") state0 in
  fst (fst r) =
    Ok (VStr "x", {| record_runId := 0; target := "echo"; status := success;
                     startedAt := 0%float; endedAt := 0%float;
                     durationMs := PrimFloat.sub 0 0 |}) /\
  count_effects (is_span_end_of 1) (snd r) = 1 /\
  last (snd r) = Some SinkClose.
Proof.
  destruct (run_success_closes_root_span plainOptions echoStep (VStr "x") state0 (VStr "x")
              (after_uuids 2 state0) [] eq_refl) as (Hr & _ & Hcount).
  split; [by rewrite Hr|]. split; [|by rewrite Hr].
  apply Hcount. intros e [].
Defined.

Lemma run_invalid_input_witness :
  createRuntime.run plainOptions strictStep (VStr "") state0 =
  (Throw (ValidationError (VArr [VStr "too_small"]) "input validation failed"),
   after_uuids 2 state0,
   [root_span_start strictStep state0;
    SinkWrite (validation_error 0%float 0 1 input_dir (VArr [VStr "too_small"]));
    root_span_end strictStep state0 (after_uuids 2 state0) (Some "input validation failed");
    SinkClose]).
Proof.
  exact (run_invalid_input plainOptions strictStep (VStr "") state0
           (VArr [VStr "too_small"]) eq_refl).
Defined.

Lemma run_wrapped_step_success_witness :
  exists record s1 fx,
    createRuntime.run plainOptions (defineStep echoStep) (VStr "x") state0
    = (Ok (VStr "x", record), s1, fx) /\
    status record = success /\ last fx = Some SinkClose.
Proof.
  eexists _, _, _.
  split; [exact (run_wrapped_step_success plainOptions echoStep (VStr "x") state0
                   (VStr "x") (VStr "x") (VStr "x") (VStr "x") (VStr "x")
                   (after_uuids 3 state0) [] eq_refl eq_refl eq_refl eq_refl eq_refl)|].
  split; reflexivity.
Defined.

(** ** packages/llm: the generation call, further properties *)

(** A cache that finds nothing and cannot store. *)
Definition readOnlyCache : Cache unit :=
  {| get := fun _ => ret VUndefined;
     set := fun _ _ => throw (Error "read-only") |}.

(** A cache that cannot be read. *)
Definition unreadableCache : Cache unit :=
  {| get := fun _ => throw (Error "unreadable");
     set := fun _ _ => ret tt |}.

Definition ctx_with_cache (cache : option (Cache unit)) : Ctx unit :=
  {| RuntimeCtx.runId := 100; RuntimeCtx.spanId := 101;
     RuntimeCtx.trace := {| Trace.runId := 100; Trace.spanId := 101;
                            Trace.parentSpanId := None |};
     RuntimeCtx.llm := staticLLM "ok"; RuntimeCtx.cache := cache;
     RuntimeCtx.policies := None |}.

(** The request [args] with another schema. *)
Definition with_schema (args : LLMGenerateArgs) (sch : ZodType) : LLMGenerateArgs :=
  {| model := model args; messages := messages args; schema := Some sch;
     temperature := temperature args; maxTokens := maxTokens args;
     tools := tools args |}.

(** A schema that rejects every value, printed like [booleanSchema]. *)
Definition neverSchema : ZodType :=
  {| safeParse := fun _ => parse_failure (VArr [VStr "never"]);
     toString := Some "[object Object]" |}.

Section GenerateFurther.
Context {host : Host} {U : Type}.

(** X12. Without a cache every call asks the backend, as the first thing it
    does, and the store of the in-memory cache is left as it was. *)
Theorem generate_without_cache options (ctx : Ctx U) args s :
  RuntimeCtx.cache ctx = None ->
  exists r s' rest,
    generate options ctx args s = (r, s', Respond args :: rest) /\
    cacheStore s' = cacheStore s.
Proof.
  intros Hc. unfold generate, bind. rewrite Hc. simpl.
  unfold try_finally, try_catch, bind, call_responder. simpl.
  destruct (responder options args (world s)) as [[response|err] w]; simpl.
  - destruct (schema args) as [sch|]; simpl.
    + unfold parseWithSchema.
      destruct (safeParse sch _) as [data|issues]; simpl; eauto.
    + eauto.
  - eauto.
Qed.

(** X13. A miss on which the backend throws: the call writes one
    [llm_call] event with the message of the error, then the
    [llm_call_complete] event, and throws the error on unchanged; the cache
    is not written. *)
Theorem backend_failure_traced_and_rethrown options (ctx : Ctx U) args s cached s0 fx0
    err w :
  maybeGet (RuntimeCtx.cache ctx) (cacheKey args) s = (Ok cached, s0, fx0) ->
  truthy cached = false ->
  responder options args (world s0) = (Throw err, w) ->
  let r := generate options ctx args s in
  r = (Throw err, with_world s0 w,
       fx0 ++ [Respond args; llm_call_failed ctx args s0 err; llm_call_complete ctx s0]) /\
  cacheStore (snd (fst r)) = cacheStore s0 /\
  count_effects is_llm_call (snd r) = count_effects is_llm_call fx0 + 1.
Proof.
  intros Hget Ht Hr r.
  pose proof (generate_miss_backend_failure options ctx args s cached s0 fx0 err w
                Hget Ht Hr) as H.
  fold r in H. rewrite H. split; [reflexivity|]. split; [reflexivity|].
  simpl snd. by rewrite count_effects_app.
Qed.

(** X14. A miss on which the backend answers and the cache then fails to
    store: the [llm_call] event of the success is already written, a second
    [llm_call] event with the message of the error of the cache follows, and
    the call throws that error although the backend answered. *)
Theorem cache_set_failure_fails_the_call options (ctx : Ctx U) c args s cached s0 fx0
    response w parsed err s2 fxs :
  RuntimeCtx.cache ctx = Some c ->
  get c (cacheKey args) s = (Ok cached, s0, fx0) ->
  truthy cached = false ->
  responder options args (world s0) = (Ok response, w) ->
  match schema args with
  | Some sch => safeParse sch (candidate_of (response_raw response)) = parse_success parsed
  | None => parsed = VUndefined
  end ->
  set c (cacheKey args)
    (LLMGenerateResult_value
       {| raw := response_raw response; parsed := parsed;
          tokens := response_tokens response; costUsd := response_costUsd response |})
    (with_world s0 w) = (Throw err, s2, fxs) ->
  generate options ctx args s =
  (Throw err, s2,
   fx0 ++ [Respond args; llm_call_done ctx args s0 response parsed] ++ fxs ++
   [llm_call_failed ctx args s2 err; llm_call_completed ctx s0 s2]).
Proof.
  intros Hc Hget Ht Hr Hp Hset. unfold generate, bind. rewrite Hc. simpl.
  rewrite Hget, Ht. simpl.
  unfold try_finally, try_catch, bind, call_responder. simpl. rewrite Hr. simpl.
  assert (Hparse :
    match schema args with
    | Some sch => parseWithSchema sch (response_raw response)
    | None => ret VUndefined
    end (with_world s0 w) = (Ok parsed, with_world s0 w, [])).
  { destruct (schema args) as [sch|].
    - unfold parseWithSchema. fold (candidate_of (response_raw response)).
      by rewrite Hp.
    - by subst parsed. }
  unfold with_world in Hparse. rewrite Hparse. simpl.
  unfold with_world in Hset. rewrite Hset. simpl.
  by rewrite <- !app_assoc.
Qed.

(** X15. When the cache fails to read, the call throws the error of the
    cache: the backend is not asked and nothing of the call is traced. *)
Theorem cache_get_failure_is_thrown options (ctx : Ctx U) c args s err s0 fx0 :
  RuntimeCtx.cache ctx = Some c ->
  get c (cacheKey args) s = (Throw err, s0, fx0) ->
  generate options ctx args s = (Throw err, s0, fx0).
Proof.
  intros Hc Hget. unfold generate, bind. rewrite Hc. simpl. by rewrite Hget.
Qed.

Lemma cacheKey_with_schema args sch :
  (sch0 ← schema args; toString sch0) = toString sch ->
  cacheKey (with_schema args sch) = cacheKey args.
Proof.
  intros H. unfold cacheKey, cacheKey_request, with_schema. cbn [schema model messages
    temperature maxTokens tools]. cbn [mbind option_bind]. by rewrite <- H.
Qed.

(** X16. The cache key holds of a schema only what [toString] prints, and a
    hit is not validated: with the in-memory cache, a truthy value stored
    for a request is returned as it is for the same request with another
    schema that prints alike, whatever that schema accepts. *)
Theorem hit_skips_schema_validation options (ctx : Ctx U) args sch s cached :
  RuntimeCtx.cache ctx = Some memoryCache ->
  (sch0 ← schema args; toString sch0) = toString sch ->
  cacheStore s !! cacheKey args = Some cached ->
  truthy cached = true ->
  cacheKey (with_schema args sch) = cacheKey args /\
  generate options ctx (with_schema args sch) s = (Ok cached, s, []).
Proof.
  intros Hc Hs Hl Ht. pose proof (cacheKey_with_schema args sch Hs) as Hk.
  split; [exact Hk|].
  apply generate_hit; [|exact Ht].
  rewrite Hc, Hk. unfold maybeGet, memoryCache. simpl. by rewrite Hl.
Qed.

(** X17. A miss that succeeds, with the in-memory cache: the backend is
    asked once and changes the world once, one [llm_call] event with the text
    and the parsed value is written, then the [llm_call_complete] event, and
    the store changes under the key of the request only. *)
Theorem successful_miss_stores_under_its_key options (ctx : Ctx U) args s response w parsed :
  RuntimeCtx.cache ctx = Some memoryCache ->
  truthy (default VUndefined (cacheStore s !! cacheKey args)) = false ->
  responder options args (world s) = (Ok response, w) ->
  match schema args with
  | Some sch => safeParse sch (candidate_of (response_raw response)) = parse_success parsed
  | None => parsed = VUndefined
  end ->
  exists result s1,
    generate options ctx args s =
    (Ok result, s1,
     [Respond args; llm_call_done ctx args s response parsed; llm_call_complete ctx s]) /\
    result = VObj [("raw", VStr (response_raw response)); ("parsed", parsed);
                   ("tokens", Tokens_value (response_tokens response));
                   ("costUsd", opt_num (response_costUsd response))] /\
    world s1 = w /\
    cacheStore s1 !! cacheKey args = Some result /\
    (forall key, key <> cacheKey args -> cacheStore s1 !! key = cacheStore s !! key).
Proof.
  intros Hc Ht Hr Hp. eexists _, _.
  split; [exact (generate_miss_success options ctx args s response w parsed Hc Ht Hr Hp)|].
  split; [reflexivity|]. split; [reflexivity|]. simpl. split.
  - by rewrite lookup_insert_eq.
  - intros key Hne. by rewrite lookup_insert_ne.
Qed.

End GenerateFurther.

Lemma generate_without_cache_witness :
  exists r s' rest,
    generate (staticLLM "ok") (ctx_with_cache None) plainArgs state0
    = (r, s', Respond plainArgs :: rest) /\
    cacheStore s' = cacheStore state0.
Proof.
  exact (generate_without_cache (staticLLM "ok") (ctx_with_cache None) plainArgs state0
           eq_refl).
Defined.

Lemma backend_failure_traced_and_rethrown_witness :
  generate failingLLM cachedCtx plainArgs state0 =
  (Throw (Error "down"), with_world state0 tt,
   [] ++ [Respond plainArgs; llm_call_failed cachedCtx plainArgs state0 (Error "down");
          llm_call_complete cachedCtx state0]).
Proof.
  exact (proj1 (backend_failure_traced_and_rethrown failingLLM cachedCtx plainArgs state0
                  VUndefined state0 [] (Error "down") tt eq_refl eq_refl eq_refl)).
Defined.

Lemma cache_set_failure_fails_the_call_witness :
  exists s2 fx,
    generate (staticLLM "ok") (ctx_with_cache (Some readOnlyCache)) plainArgs state0
    = (Throw (Error "read-only"), s2, fx) /\
    count_effects is_llm_call fx = 2.
Proof.
  eexists _, _.
  split; [exact (cache_set_failure_fails_the_call (staticLLM "ok")
                   (ctx_with_cache (Some readOnlyCache)) readOnlyCache plainArgs state0
                   VUndefined state0 []
                   {| response_raw := "ok"; response_tokens := None;
                      response_costUsd := None |} tt VUndefined (Error "read-only")
                   (with_world state0 tt) []
                   eq_refl eq_refl eq_refl eq_refl eq_refl eq_refl)|].
  reflexivity.
Defined.

Lemma cache_get_failure_is_thrown_witness :
  generate (staticLLM "ok") (ctx_with_cache (Some unreadableCache)) plainArgs state0 =
  (Throw (Error "unreadable"), state0, []).
Proof.
  exact (cache_get_failure_is_thrown (staticLLM "ok")
           (ctx_with_cache (Some unreadableCache)) unreadableCache plainArgs state0
           (Error "unreadable") state0 [] eq_refl eq_refl).
Defined.

(** A cache that holds [true] under the key of [booleanArgs]. *)
Definition booleanCachedState : State unit :=
  {| nextUUID := 0; clock := 0%float;
     cacheStore := {[ cacheKey booleanArgs := VBool true ]}; world := tt |}.

Lemma hit_skips_schema_validation_witness :
  generate (staticLLM "ok") cachedCtx (with_schema booleanArgs neverSchema)
    booleanCachedState
  = (Ok (VBool true), booleanCachedState, []).
Proof.
  exact (proj2 (hit_skips_schema_validation (staticLLM "ok") cachedCtx booleanArgs
                  neverSchema booleanCachedState (VBool true)
                  eq_refl eq_refl eq_refl eq_refl)).
Defined.

Lemma successful_miss_stores_under_its_key_witness :
  exists result s1,
    generate (staticLLM "ok") cachedCtx plainArgs state0 =
    (Ok result, s1,
     [Respond plainArgs;
      llm_call_done cachedCtx plainArgs state0
        {| response_raw := "ok"; response_tokens := None; response_costUsd := None |}
        VUndefined;
      llm_call_complete cachedCtx state0]) /\
    cacheStore s1 !! cacheKey plainArgs = Some result.
Proof.
  destruct (successful_miss_stores_under_its_key (staticLLM "ok") cachedCtx plainArgs
              state0 {| response_raw := "ok"; response_tokens := None;
                        response_costUsd := None |} tt VUndefined
              eq_refl eq_refl eq_refl eq_refl)
    as (result & s1 & Hg & _ & _ & Hl & _).
  exists result, s1. by split.
Defined.

(** ** packages/eval: the evaluation run, further properties *)




Section EvalFurther.
Context {U : Type}.





Lemma eval_cases_app (spec : EvalSpec U) rt pre rest acc s outs s1 fx1 :
  run_targets (spec_target spec) rt pre s = (Ok outs, s1, fx1) ->
  plain_names (spec_judges spec) (zip pre outs) ->
  eval_cases spec rt (pre ++ rest) acc s =
  (let '(r, s2, fx2) := eval_cases spec rt rest (eval_fold spec (zip pre outs) acc) s1 in
   (r, s2, fx1 ++ fx2)).
Proof.
  revert acc s outs s1 fx1.
  induction pre as [|c pre IH]; intros acc s outs s1 fx1 H Hplain.
  - injection H as <- <- <-. simpl.
    by destruct (eval_cases spec rt rest acc s) as [[r s2] fx2].
  - simpl in *. unfold bind in *.
    destruct (rt (spec_target spec) (case_input c) s) as [[[r|e] sa] fa]; [|done].
    destruct (run_targets (spec_target spec) rt pre sa) as [[[outs'|e] sb] fb] eqn:E;
      [|done].
    simpl in H. injection H as <- <- <-. simpl in Hplain.
    apply Forall_cons in Hplain as [Hc Hrest]. simpl in Hc.
    unfold of_outcome. rewrite (case_step_plain spec c (fst r) acc Hc).
    rewrite (IH _ _ _ _ _ E Hrest). simpl.
    destruct (eval_cases spec rt rest _ sb) as [[[r'|e'] s2] fx2]; simpl;
      by rewrite app_nil_r, <- app_assoc.
Qed.


(** X20. An evaluation of a dataset without cases runs nothing and reports
    no aggregate: it passes exactly when the threshold map is empty.  An
    evaluation with an empty threshold map that returns has passed. *)
Theorem runEval_empty_dataset_or_thresholds (spec : EvalSpec U) rt s :
  (dataset_cases (spec_dataset spec) = [] ->
   runEval spec rt s =
   (Ok {| run_name := spec_name spec;
          run_dataset := dataset_name (spec_dataset spec);
          run_cases := [];
          run_aggregates := ∅;
          run_passed := match spec_thresholds spec with [] => true | _ => false end |},
    s, [])) /\
  (spec_thresholds spec = [] ->
   forall r s' fx, runEval spec rt s = (Ok r, s', fx) -> run_passed r = true).
Proof.
  split.
  - intros H. unfold runEval, bind. rewrite H. simpl. rewrite fmap_empty.
    destruct (spec_thresholds spec) as [|entry l]; [reflexivity|].
    simpl. unfold threshold_met at 1. rewrite lookup_empty.
    by destruct (inherited (fst entry)).
  - intros H r s' fx Hr. apply runEval_inv in Hr. by rewrite Hr, H.
Qed.

Lemma values_of_plain k es :
  inherited k = true ->
  Forall (fun kv => inherited (fst kv) = false) es ->
  values_of k es = [].
Proof.
  intros Hk H. induction H as [|kv es Hkv _ IH]; [reflexivity|].
  simpl. destruct (String.eqb (fst kv) k) eqn:E; [|exact IH].
  apply String.eqb_eq in E. congruence.
Qed.

Lemma judge_steps_as_entries c out judges acc :
  match judge_steps c out judges acc with
  | Ok r =>
      record_metrics (flat_map (judged_by c out) judges)
        (acc_aggregates acc, acc_metrics acc) = Ok (acc_aggregates r, acc_metrics r)
  | Throw err =>
      record_metrics (flat_map (judged_by c out) judges)
        (acc_aggregates acc, acc_metrics acc) = Throw err
  end.
Proof.
  revert acc. induction judges as [|j judges IH]; intros acc; [reflexivity|].
  simpl. rewrite record_metrics_app. unfold judge_step at 1. fold (judged_by c out j).
  destruct (record_metrics (judged_by c out j) _) as [am|err]; [|reflexivity].
  specialize (IH {| acc_aggregates := fst am; acc_metrics := snd am;
                    acc_notes := match score_notes (j (case_input c) out (case_expected c)) with
                                 | Some n => if String.eqb n "" then acc_notes acc
                                             else acc_notes acc ++ [n]
                                 | None => acc_notes acc
                                 end;
                    acc_artifacts := match score_artifacts
                                             (j (case_input c) out (case_expected c)) with
                                     | Some a => acc_artifacts acc ++ [a]
                                     | None => acc_artifacts acc
                                     end |}).
  simpl in IH. by rewrite <- surjective_pairing in IH.
Qed.

(** X25. A metric named like a property of [Object.prototype] ends the
    evaluation with a [TypeError]: when the runs and the judges of the cases
    before [c] went through, the target runs on [c], and the judges report
    for [c] the entries [before], of other names, and then an entry of such a
    name, the evaluation throws at that entry, with the state and the effects
    of the runs up to [c]; there is no result and the cases after [c] are not
    run. *)
Theorem runEval_inherited_metric_name_throws (spec : EvalSpec U) rt s pre c post
    outs s1 fx1 out record s2 fx2 before k v after :
  dataset_cases (spec_dataset spec) = pre ++ c :: post ->
  run_targets (spec_target spec) rt pre s = (Ok outs, s1, fx1) ->
  plain_names (spec_judges spec) (zip pre outs) ->
  rt (spec_target spec) (case_input c) s1 = (Ok (out, record), s2, fx2) ->
  flat_map (judged_by c out) (spec_judges spec) = before ++ (k, v) :: after ->
  Forall (fun kv => inherited (fst kv) = false) before ->
  inherited k = true ->
  runEval spec rt s =
  (Throw (TypeError "aggregates[k].push is not a function"), s2, fx1 ++ fx2).
Proof.
  intros Hcases Hpre Hplain Hc Hentries Hbefore Hk. unfold runEval, bind. rewrite Hcases.
  rewrite (eval_cases_app spec rt pre (c :: post) _ s outs s1 fx1 Hpre Hplain).
  simpl. unfold bind. rewrite Hc. simpl.
  set (acc := eval_fold spec (zip pre outs) ([], ∅)).
  assert (Hthrow : case_step spec c out acc =
                   Throw (TypeError "aggregates[k].push is not a function")).
  { unfold case_step.
    pose proof (judge_steps_as_entries c out (spec_judges spec)
                  {| acc_aggregates := snd acc; acc_metrics := ∅;
                     acc_notes := []; acc_artifacts := [] |}) as Hj.
    simpl in Hj. rewrite Hentries, record_metrics_app in Hj.
    rewrite (record_metrics_plain before _ Hbefore) in Hj. simpl in Hj.
    unfold record_metric in Hj. cbv zeta in Hj. simpl fst in Hj.
    rewrite record_metrics_aggregates in Hj. simpl fst in Hj.
    rewrite (values_of_plain k before Hk Hbefore) in Hj. simpl extend in Hj.
    unfold acc in Hj. rewrite eval_fold_aggregates in Hj. simpl snd in Hj.
    rewrite lookup_empty in Hj.
    assert (Hrec : recorded k (spec_judges spec) (zip pre outs) = []).
    { unfold recorded. clear -Hplain Hk. induction Hplain as [|co cos Hco _ IH];
        [reflexivity|].
      simpl. rewrite IH, app_nil_r. unfold case_values.
      rewrite <- values_of_flat_map. by apply values_of_plain. }
    rewrite Hrec in Hj. simpl in Hj. rewrite Hk in Hj.
    fold acc in Hj.
    destruct (judge_steps c out (spec_judges spec) _); [discriminate Hj|].
    by injection Hj as <-. }
  unfold of_outcome. rewrite Hthrow. simpl. by rewrite app_nil_r.
Qed.

End EvalFurther.




Definition prototypeEval : EvalSpec unit :=
  {| spec_name := "prototype_eval";
     spec_target := strictStep;
     spec_dataset := {| dataset_name := "two";
                        dataset_cases := [mkCase "a" VUndefined; mkCase "b" VUndefined] |};
     spec_judges := [constJudge "score" 1; constJudge "constructor" 1];
     spec_thresholds := [] |}.

Lemma runEval_inherited_metric_name_throws_witness :
  exists s2 fx,
    runEval prototypeEval (createRuntime.run plainOptions) state0 =
    (Throw (TypeError "aggregates[k].push is not a function"), s2, fx) /\
    nextUUID s2 = 2.
Proof.
  eexists _, _.
  split; [exact (runEval_inherited_metric_name_throws prototypeEval
                   (createRuntime.run plainOptions) state0 [] (mkCase "a" VUndefined)
                   [mkCase "b" VUndefined] _ _ _ _ _ _ _
                   [("score", 1%float)] "constructor" 1%float []
                   eq_refl eq_refl (List.Forall_nil _) eq_refl eq_refl
                   (@List.Forall_cons _ _ ("score", 1%float) [] eq_refl (List.Forall_nil _))
                   eq_refl)|].
  reflexivity.
Defined.

(** ** packages/llm: the echo and the static client *)

(** [v[k]] for an object value: the value of the key, [undefined] without it. *)
Definition prop (k : string) (v : value) : value :=
  match v with
  | VObj entries =>
      match List.find (fun kv => String.eqb (fst kv) k) entries with
      | Some kv => snd kv
      | None => VUndefined
      end
  | _ => VUndefined
  end.

(** [m.role === "user"] *)
Definition is_user (m : value) : bool :=
  match prop "role" m with
  | VStr role => String.eqb role "user"
  | _ => false
  end.

(** [m.content ?? ""], the content of a message being a string by the type
    of the messages (a content of another kind reads as the empty string
    here). *)
Definition content_text (m : value) : string :=
  match prop "content" m with
  | VStr content => content
  | _ => ""
  end.

Definition createEchoLLM {U} : LLMClientOptions U :=
  {| responder := fun args w =>
       let lastUser := List.find is_user (rev (messages args)) in
       let raw := match lastUser with
                  | Some m => content_text m
                  | None => ""
                  end in
       (Ok {| response_raw := raw; response_tokens := None; response_costUsd := None |},
        w) |}.

Definition createStaticLLM {U} (response : string) : LLMClientOptions U :=
  {| responder := fun _ w =>
       (Ok {| response_raw := response; response_tokens := None;
              response_costUsd := None |}, w) |}.

Section EchoTheorems.
Context {host : Host} {U : Type}.

Lemma find_skip {A} (p : A -> bool) l1 l2 :
  (forall x, In x l1 -> p x = false) -> List.find p (l1 ++ l2) = List.find p l2.
Proof.
  induction l1 as [|x l1 IH]; intros H; [reflexivity|].
  simpl. rewrite (H x) by (by left). apply IH. intros y Hy. apply H. by right.
Qed.

Lemma find_rev_last_user pre m post :
  is_user m = true ->
  Forall (fun x => is_user x = false) post ->
  List.find is_user (rev (pre ++ m :: post)) = Some m.
Proof.
  intros Hm Hpost. rewrite rev_app_distr. simpl. rewrite <- app_assoc.
  rewrite find_skip.
  - simpl. by rewrite Hm.
  - intros x Hx. apply in_rev in Hx. rewrite List.Forall_forall in Hpost.
    by apply Hpost.
Qed.

Lemma find_rev_no_user msgs :
  Forall (fun x => is_user x = false) msgs -> List.find is_user (rev msgs) = None.
Proof.
  intros H. rewrite <- (app_nil_r (rev msgs)), find_skip; [reflexivity|].
  intros x Hx. apply in_rev in Hx. rewrite List.Forall_forall in H. by apply H.
Qed.

(** X21. The echo client answers with the content of the last message of
    the role user, and with the empty string when no message has that role;
    a generation call without cache and schema returns that text as the raw
    output, with nothing parsed, and traces it. *)
Theorem echo_answers_last_user_message (ctx : Ctx U) args s :
  RuntimeCtx.cache ctx = None ->
  schema args = None ->
  let answer raw :=
    {| response_raw := raw; response_tokens := None; response_costUsd := None |} in
  let returns raw :=
    generate createEchoLLM ctx args s =
    (Ok (VObj [("raw", VStr raw); ("parsed", VUndefined);
               ("tokens", VUndefined); ("costUsd", VUndefined)]),
     s,
     [Respond args; llm_call_done ctx args s (answer raw) VUndefined;
      llm_call_complete ctx s]) in
  (forall pre m post,
     messages args = pre ++ m :: post ->
     is_user m = true ->
     Forall (fun x => is_user x = false) post ->
     returns (content_text m)) /\
  (Forall (fun x => is_user x = false) (messages args) -> returns "").
Proof.
  intros Hc Hs answer returns. subst returns answer. split.
  - intros pre m post Hm Hu Hpost.
    unfold generate, bind. rewrite Hc. simpl.
    unfold try_finally, try_catch, bind, call_responder. simpl.
    rewrite Hm, (find_rev_last_user pre m post Hu Hpost), Hs. simpl.
    by destruct s.
  - intros Hnone.
    unfold generate, bind. rewrite Hc. simpl.
    unfold try_finally, try_catch, bind, call_responder. simpl.
    rewrite (find_rev_no_user _ Hnone), Hs. simpl.
    by destruct s.
Qed.

End EchoTheorems.

Lemma echo_answers_last_user_message_witness :
  generate createEchoLLM (ctx_with_cache None) plainArgs state0 =
  (Ok (VObj [("raw", VStr "hi"); ("parsed", VUndefined);
             ("tokens", VUndefined); ("costUsd", VUndefined)]),
   state0,
   [Respond plainArgs;
    llm_call_done (ctx_with_cache None) plainArgs state0
      {| response_raw := "hi"; response_tokens := None; response_costUsd := None |}
      VUndefined;
    llm_call_complete (ctx_with_cache None) state0]).
Proof.
  exact (proj1 (echo_answers_last_user_message (ctx_with_cache None) plainArgs state0
                  eq_refl eq_refl)
           [] (userMessage "hi") [] eq_refl eq_refl (List.Forall_nil _)).
Defined.

Section RunBrackets.
Context {U : Type}.

Lemma run_failure_effects (options : RuntimeOptions U) (target : Step U) i s err s1 inner :
  call_chain target (root_ctx options s) i (after_uuids 2 s) = (Throw err, s1, inner) ->
  createRuntime.run options target i s =
  (Throw err, s1,
   root_span_start target s
     :: inner ++ [root_span_end target s s1 (Some (errorText err)); SinkClose]).
Proof.
  intros H. unfold createRuntime.run, call_chain in *.
  unfold bind, try_catch in *. simpl in *.
  change {| nextUUID := S (S (nextUUID s)); clock := clock s;
            cacheStore := cacheStore s; world := world s |}
    with (after_uuids 2 s).
  fold (root_ctx options s).
  destruct (validateWithZod (input target) i input_dir _ _ (after_uuids 2 s))
    as [[[vi|e1] sa] fa].
  - destruct (run target (root_ctx options s) vi sa) as [[[out|e2] sb] fb].
    + destruct (validateWithZod (output target) out output_dir _ _ sb)
        as [[[vo|e3] sc] fc]; [done|].
      injection H as -> -> <-. simpl. by rewrite <- !app_assoc.
    + injection H as -> -> <-. simpl. by rewrite <- !app_assoc.
  - injection H as -> -> <-. reflexivity.
Qed.

(** X22. Every run of the orchestrator, whatever the target, the input and
    the outcome, writes the root [span_start] first, then what the call chain
    writes, then the root [span_end], which has an error exactly when the run
    throws, and closes the sink last; the state it leaves is the state the
    call chain left. *)
Theorem run_brackets_the_trace (options : RuntimeOptions U) (target : Step U) i s :
  let r := createRuntime.run options target i s in
  let chain := call_chain target (root_ctx options s) i (after_uuids 2 s) in
  exists error,
    snd r = root_span_start target s
              :: snd chain ++ [root_span_end target s (snd (fst r)) error; SinkClose] /\
    snd (fst r) = snd (fst chain) /\
    match fst (fst r) with
    | Ok _ => error = None
    | Throw err => error = Some (errorText err) /\ fst (fst chain) = Throw err
    end.
Proof.
  intros r chain. subst r.
  destruct chain as [[[out|err] s1] inner] eqn:E; subst chain.
  - rewrite (run_success_record options target i s out s1 inner E).
    exists None. by repeat split.
  - rewrite (run_failure_effects options target i s err s1 inner E).
    exists (Some (errorText err)). by repeat split.
Qed.

End RunBrackets.
